(** * PublishSubscribe: a memory-safety model of the typed event dispatcher

    Shallow embedding of [EventDispatcher.hpp] and [Subscription.hpp].

    Objects created with [new] live in a store indexed by addresses.  An
    address is never handed out twice, so a pointer to a deleted object stays
    invalid for ever (the C++ lifetime rules); using one is a fault, as is a
    call through [nullptr] and the use of an invalidated [std::map] iterator.
    Addresses grow with each allocation, so the entries of one map are
    visited in the order of subscription, where the source leaves the order
    to the allocator.  A [std::map] is a strictly sorted association list:
    iteration order and uniqueness of keys are those of the container.  The
    template parameter [EventType] is represented by its [std::type_index],
    a number; the events of all types are values of one type [Event]. *)

From stdpp Require Import gmap list.

(** ** [std::map] with pointer or [type_index] keys *)

Module StdMap.

Section Defs.
Context {V : Type}.

(** [m.find(k)], as the mapped value. *)
Fixpoint find (k : nat) (m : list (nat * V)) : option V :=
  match m with
  | [] => None
  | (k', v) :: r => if k =? k' then Some v else find k r
  end.

(** [m.insert(std::make_pair(k, v))]: an existing key is left as it is. *)
Fixpoint insert (k : nat) (v : V) (m : list (nat * V)) : list (nat * V) :=
  match m with
  | [] => [(k, v)]
  | (k', v') :: r =>
      if k <? k' then (k, v) :: m
      else if k =? k' then m
      else (k', v') :: insert k v r
  end.

(** [m.erase(k)]. *)
Fixpoint erase (k : nat) (m : list (nat * V)) : list (nat * V) :=
  match m with
  | [] => []
  | (k', v') :: r => if k =? k' then r else (k', v') :: erase k r
  end.

(** An iterator is the key of the node it points to; [None] is [m.end()]. *)
Definition begin (m : list (nat * V)) : option nat :=
  match m with
  | [] => None
  | (k, _) :: _ => Some k
  end.

(** [++it] for a valid iterator at key [k]: the node with the next key. *)
Fixpoint next (k : nat) (m : list (nat * V)) : option nat :=
  match m with
  | [] => None
  | (k', _) :: r => if k <? k' then Some k' else next k r
  end.

Definition keys (m : list (nat * V)) : list nat := map fst m.

(** Keys strictly ascending. *)
Fixpoint sorted (m : list (nat * V)) : Prop :=
  match m with
  | [] => True
  | (k, _) :: r => Forall (fun kv => k < fst kv) r /\ sorted r
  end.

End Defs.

End StdMap.

(** ** Objects, the store and the observation log *)

(** A [CallbackFunction] is identified by a number; what it does when it is
    called is given by a code table (see [command] below). *)
Definition callback := nat.

(** [Subscription<EventType>]: the pointer to the specific dispatcher,
    [None] standing for [nullptr]. *)
Record Subscription := { m_specific_dispatcher : option nat }.

(** [SpecificDispatcher<EventType>]: the map from subscription pointers to
    callback functions. *)
Record SpecificDispatcher := { m_callbacks : list (nat * callback) }.

(** [EventDispatcher]: the map from [type_index] to the owned dispatcher. *)
Record EventDispatcher := { m_dispatchers : list (nat * nat) }.

Inductive fault := NullDereference | DanglingPointer | InvalidIterator.

Section Model.
Variable Event : Type.

(** What an observer of a run sees: a callback being called for the entry
    of a subscription, and a [cancel()] that has returned. *)
Inductive obs :=
  | Invoked (subscription : nat) (cb : callback) (event : Event)
  | Cancelled (subscription : nat).

Record World := {
  subscriptions : gmap nat Subscription;
  dispatchers : gmap nat SpecificDispatcher;
  registry : option EventDispatcher;
  next_addr : nat;
  log : list obs
}.

(** How a call ends, and in which state: it returns, it faults (the
    behaviour is undefined from there on), or the fuel of the model runs
    out. *)
Inductive outcome (A : Type) :=
  | Returns (a : A) (w : World)
  | Faults (f : fault) (w : World)
  | OutOfFuel (w : World).

Definition M (A : Type) := World -> outcome A.

Definition ret {A} (a : A) : M A := fun w => Returns A a w.

Definition bind {A B} (c : M A) (k : A -> M B) : M B :=
  fun w =>
    match c w with
    | Returns _ a w' => k a w'
    | Faults _ f w' => Faults B f w'
    | OutOfFuel _ w' => OutOfFuel B w'
    end.

Definition raise {A} (f : fault) : M A := fun w => Faults A f w.

Definition out_of_fuel {A} : M A := fun w => OutOfFuel A w.

(** The state a call ends in. *)
Definition final {A} (o : outcome A) : World :=
  match o with
  | Returns _ _ w => w
  | Faults _ _ w => w
  | OutOfFuel _ w => w
  end.

Notation "'let*' x ':=' c 'in' k" := (bind c (fun x => k))
  (at level 10, x name, c at level 100, k at level 200).
Notation "c1 >> c2" := (bind c1 (fun _ => c2))
  (at level 100, right associativity).

Definition observe (o : obs) : M unit :=
  fun w =>
    Returns unit tt
      {| subscriptions := subscriptions w; dispatchers := dispatchers w;
         registry := registry w; next_addr := next_addr w;
         log := log w ++ [o] |}.

(** *** Store access *)

Definition deref_subscription (p : nat) : M Subscription :=
  fun w =>
    match subscriptions w !! p with
    | Some s => Returns _ s w
    | None => Faults _ DanglingPointer w
    end.

Definition deref_dispatcher (p : nat) : M SpecificDispatcher :=
  fun w =>
    match dispatchers w !! p with
    | Some d => Returns _ d w
    | None => Faults _ DanglingPointer w
    end.

Definition store_subscription (p : nat) (s : Subscription) : M unit :=
  fun w =>
    Returns unit tt
      {| subscriptions := <[p := s]> (subscriptions w);
         dispatchers := dispatchers w; registry := registry w;
         next_addr := next_addr w; log := log w |}.

Definition store_dispatcher (p : nat) (d : SpecificDispatcher) : M unit :=
  fun w =>
    Returns unit tt
      {| subscriptions := subscriptions w;
         dispatchers := <[p := d]> (dispatchers w); registry := registry w;
         next_addr := next_addr w; log := log w |}.

(** [new].  The model hands out addresses in increasing order and never
    hands one out twice.  The C++ allocator promises neither: a new object
    may get a lower address than a live one, or the address of a released
    one.  The order decides where a new key sorts in [m_callbacks] and
    nothing else, so the theorems on the entries of a channel speak through
    [StdMap.find] and [calls_for], not of the place of an entry; the lemmas
    that do speak of the place say so. *)
Definition new_subscription (s : Subscription) : M nat :=
  fun w =>
    Returns nat (next_addr w)
      {| subscriptions := <[next_addr w := s]> (subscriptions w);
         dispatchers := dispatchers w; registry := registry w;
         next_addr := S (next_addr w); log := log w |}.

Definition new_dispatcher (d : SpecificDispatcher) : M nat :=
  fun w =>
    Returns nat (next_addr w)
      {| subscriptions := subscriptions w;
         dispatchers := <[next_addr w := d]> (dispatchers w);
         registry := registry w;
         next_addr := S (next_addr w); log := log w |}.

Definition free_subscription (p : nat) : M unit :=
  fun w =>
    Returns unit tt
      {| subscriptions := delete p (subscriptions w);
         dispatchers := dispatchers w; registry := registry w;
         next_addr := next_addr w; log := log w |}.

Definition free_dispatcher (p : nat) : M unit :=
  fun w =>
    Returns unit tt
      {| subscriptions := subscriptions w;
         dispatchers := delete p (dispatchers w); registry := registry w;
         next_addr := next_addr w; log := log w |}.

Definition the_registry : M EventDispatcher :=
  fun w =>
    match registry w with
    | Some r => Returns _ r w
    | None => Faults _ DanglingPointer w
    end.

Definition set_registry (r : option EventDispatcher) : M unit :=
  fun w =>
    Returns unit tt
      {| subscriptions := subscriptions w; dispatchers := dispatchers w;
         registry := r; next_addr := next_addr w; log := log w |}.

(** *** [Subscription.hpp] *)

(** [SpecificDispatcher::unsubscribe] (of [EventDispatcher.hpp], called by
    [cancel] only): [m_callbacks.erase(subscription)]. *)
Definition unsubscribe (this subscription : nat) : M unit :=
  let* d := deref_dispatcher this in
  store_dispatcher this
    {| m_callbacks := StdMap.erase subscription (m_callbacks d) |}.

(** [Subscription::cancel]:
    [m_specific_dispatcher->unsubscribe(this); m_specific_dispatcher = nullptr;]
    The member call goes through the pointer whatever its value. *)
Definition cancel (this : nat) : M unit :=
  let* s := deref_subscription this in
  match m_specific_dispatcher s with
  | None => raise NullDereference
  | Some d =>
      unsubscribe d this >>
      store_subscription this {| m_specific_dispatcher := None |} >>
      observe (Cancelled this)
  end.

(** [Subscription::active]: [m_specific_dispatcher != nullptr]. *)
Definition active (this : nat) : M bool :=
  let* s := deref_subscription this in
  ret (match m_specific_dispatcher s with Some _ => true | None => false end).

(** [delete subscription] (the [unique_ptr] going away): [~Subscription]
    calls [cancel()], then the storage is released. *)
Definition delete_subscription (this : nat) : M unit :=
  cancel this >> free_subscription this.

(** *** [EventDispatcher.hpp]: [SpecificDispatcher] *)

(** The range-based [for (auto& kv : m_callbacks)] of the dispatcher at
    [this]: [it = begin(); it != end(); ++it].  The body may change the map.
    Inserting or erasing other nodes leaves [it] valid; incrementing an
    iterator whose node was erased is a fault.  Each iteration uses one unit
    of fuel. *)
Fixpoint range_for (fuel : nat) (this : nat)
    (body : nat -> callback -> M unit) (it : option nat) : M unit :=
  match it with
  | None => ret tt
  | Some k =>
      match fuel with
      | 0 => out_of_fuel
      | S fuel' =>
          let* d := deref_dispatcher this in
          match StdMap.find k (m_callbacks d) with
          | None => raise InvalidIterator
          | Some cb =>
              body k cb >>
              let* d' := deref_dispatcher this in
              match StdMap.find k (m_callbacks d') with
              | None => raise InvalidIterator
              | Some _ =>
                  range_for fuel' this body (StdMap.next k (m_callbacks d'))
              end
          end
      end
  end.

(** [~SpecificDispatcher]: cancels the subscription of every entry, then
    the members and the storage are released.  [cancel] never inserts, so
    the number of entries bounds the iterations. *)
Definition destroy_SpecificDispatcher (this : nat) : M unit :=
  let* d := deref_dispatcher this in
  range_for (length (m_callbacks d)) this (fun subscription _ => cancel subscription)
    (StdMap.begin (m_callbacks d)) >>
  free_dispatcher this.

(** [SpecificDispatcher::publish]: calls the callback of every entry.
    [call] runs the code of a callback. *)
Definition SpecificDispatcher_publish (fuel : nat)
    (call : callback -> Event -> M unit) (this : nat) (event : Event) : M unit :=
  let* d := deref_dispatcher this in
  range_for fuel this
    (fun subscription cb => observe (Invoked subscription cb event) >> call cb event)
    (StdMap.begin (m_callbacks d)).

(** [SpecificDispatcher::subscribe]: a new [Subscription(this)], entered
    in the map under its own address; the caller owns the object. *)
Definition SpecificDispatcher_subscribe (this : nat) (cb : callback) : M nat :=
  let* subscription := new_subscription {| m_specific_dispatcher := Some this |} in
  let* d := deref_dispatcher this in
  store_dispatcher this
    {| m_callbacks := StdMap.insert subscription cb (m_callbacks d) |} >>
  ret subscription.

(** *** [EventDispatcher.hpp]: [EventDispatcher] *)

(** [EventDispatcher::dispatcher<EventType>], [T] being the [type_index]. *)
Definition dispatcher (T : nat) : M nat :=
  let* r := the_registry in
  match StdMap.find T (m_dispatchers r) with
  | None =>
      let* d := new_dispatcher {| m_callbacks := [] |} in
      set_registry (Some {| m_dispatchers := StdMap.insert T d (m_dispatchers r) |}) >>
      ret d
  | Some d => ret d
  end.

(** [EventDispatcher::subscribe<EventType>]. *)
Definition subscribe (T : nat) (cb : callback) : M nat :=
  let* d := dispatcher T in
  SpecificDispatcher_subscribe d cb.

(** [~EventDispatcher]: the map of owned dispatchers is destroyed, each
    [unique_ptr] deleting its dispatcher (taken in key order). *)
Fixpoint destroy_all (ds : list (nat * nat)) : M unit :=
  match ds with
  | [] => ret tt
  | (_, d) :: r => destroy_SpecificDispatcher d >> destroy_all r
  end.

Definition destroy_EventDispatcher : M unit :=
  let* r := the_registry in
  destroy_all (m_dispatchers r) >>
  set_registry None.

(** *** Client code *)

(** The calls a client, or the body of a callback, can make.  [Subscribe]
    keeps the returned handle alive; [Delete] lets a handle go. *)
Inductive command :=
  | Subscribe (T : nat) (cb : callback)
  | Publish (T : nat) (event : Event)
  | Cancel (subscription : nat)
  | Delete (subscription : nat)
  | DestroyRegistry.

(** The body of each callback, as a function of the event it receives. *)
Variable code : callback -> Event -> list command.

Section Exec.
Variable publish_rec : nat -> Event -> M unit.

Definition exec (c : command) : M unit :=
  match c with
  | Subscribe T cb => subscribe T cb >> ret tt
  | Publish T event => publish_rec T event
  | Cancel s => cancel s
  | Delete s => delete_subscription s
  | DestroyRegistry => destroy_EventDispatcher
  end.

Fixpoint exec_all (p : list command) : M unit :=
  match p with
  | [] => ret tt
  | c :: p' => exec c >> exec_all p'
  end.

End Exec.

(** [EventDispatcher::publish<EventType>].  [fuel] bounds the depth of
    publishes made from callbacks and the iterations of each loop. *)
Fixpoint publish (fuel : nat) (T : nat) (event : Event) : M unit :=
  match fuel with
  | 0 => out_of_fuel
  | S fuel' =>
      let* d := dispatcher T in
      SpecificDispatcher_publish fuel'
        (fun cb ev => exec_all (publish fuel') (code cb ev)) d event
  end.

(** A client program run from a state. *)
Definition run (fuel : nat) (p : list command) : M unit :=
  exec_all (publish fuel) p.

(** The state in which the [EventDispatcher] has just been constructed. *)
Definition init : World :=
  {| subscriptions := ∅; dispatchers := ∅;
     registry := Some {| m_dispatchers := [] |};
     next_addr := 1; log := [] |}.

End Model.

Arguments Invoked {Event} subscription cb event.
Arguments Cancelled {Event} subscription.
Arguments Returns {Event A} a w.
Arguments Faults {Event A} f w.
Arguments OutOfFuel {Event A} w.
Arguments final {Event A} o.
Arguments subscriptions {Event} w.
Arguments dispatchers {Event} w.
Arguments registry {Event} w.
Arguments next_addr {Event} w.
Arguments log {Event} w.
Arguments ret {Event A} a w.
Arguments bind {Event A B} c k w.
Arguments raise {Event A} f w.
Arguments observe {Event} o w.
Arguments deref_subscription {Event} p w.
Arguments deref_dispatcher {Event} p w.
Arguments store_subscription {Event} p s w.
Arguments store_dispatcher {Event} p d w.
Arguments new_subscription {Event} s w.
Arguments new_dispatcher {Event} d w.
Arguments free_subscription {Event} p w.
Arguments free_dispatcher {Event} p w.
Arguments the_registry {Event} w.
Arguments set_registry {Event} r w.
Arguments unsubscribe {Event} this subscription w.
Arguments cancel {Event} this w.
Arguments active {Event} this w.
Arguments delete_subscription {Event} this w.
Arguments range_for {Event} fuel this body it w.
Arguments destroy_SpecificDispatcher {Event} this w.
Arguments SpecificDispatcher_publish {Event} fuel call this event w.
Arguments SpecificDispatcher_subscribe {Event} this cb w.
Arguments dispatcher {Event} T w.
Arguments subscribe {Event} T cb w.
Arguments destroy_all {Event} ds w.
Arguments destroy_EventDispatcher {Event} w.
Arguments Subscribe {Event} T cb.
Arguments Publish {Event} T event.
Arguments Cancel {Event} subscription.
Arguments Delete {Event} subscription.
Arguments DestroyRegistry {Event}.
Arguments exec {Event} publish_rec c w.
Arguments exec_all {Event} publish_rec p w.
Arguments publish {Event} code fuel T event w.
Arguments run {Event} code fuel p w.
Arguments init {Event}.

(** ** States of fault-free runs *)

(** The states a client can bring a fresh dispatcher to, one call after
    the other, each publish with the fuel it needs. *)
Inductive reachable {Event} (code : callback -> Event -> list (command Event)) :
    World Event -> Prop :=
  | reachable_init : reachable code init
  | reachable_step w fuel c w' :
      reachable code w ->
      exec (publish code fuel) c w = Returns tt w' ->
      reachable code w'.

(** The store is consistent: addresses in use are below the allocation
    mark, the callback maps are sorted, and the entries of a map are exactly
    the live subscriptions bound to its dispatcher. *)
Record store_ok {Event} (w : World Event) : Prop := {
  ok_subscription_fresh :
    forall s x, subscriptions w !! s = Some x -> s < next_addr w;
  ok_dispatcher_fresh :
    forall d x, dispatchers w !! d = Some x -> d < next_addr w;
  ok_sorted :
    forall d x, dispatchers w !! d = Some x -> StdMap.sorted (m_callbacks x);
  ok_entry :
    forall d x s cb,
      dispatchers w !! d = Some x ->
      StdMap.find s (m_callbacks x) = Some cb ->
      subscriptions w !! s = Some {| m_specific_dispatcher := Some d |};
  ok_bound :
    forall s d,
      subscriptions w !! s = Some {| m_specific_dispatcher := Some d |} ->
      exists x, dispatchers w !! d = Some x /\
                is_Some (StdMap.find s (m_callbacks x))
}.

(** No callback is called for a subscription after its [cancel()] has
    returned. *)
Definition no_delivery_after_cancel {Event} (l : list (obs Event)) : Prop :=
  forall l1 l2 s cb event,
    l = l1 ++ Cancelled s :: l2 -> ~ In (Invoked s cb event) l2.

(** The log agrees with the store: a handle is null exactly when its
    [cancel()] has returned. *)
Record log_ok {Event} (w : World Event) : Prop := {
  ok_cancelled_fresh :
    forall s, In (Cancelled s) (log w) -> s < next_addr w;
  ok_cancelled_null :
    forall s x, In (Cancelled s) (log w) -> subscriptions w !! s = Some x ->
      m_specific_dispatcher x = None;
  ok_null_cancelled :
    forall s, subscriptions w !! s = Some {| m_specific_dispatcher := None |} ->
      In (Cancelled s) (log w);
  ok_order : no_delivery_after_cancel (log w)
}.

(** The dispatchers the registry owns are alive. *)
Definition registry_ok {Event} (w : World Event) : Prop :=
  forall r T d, registry w = Some r ->
    StdMap.find T (m_dispatchers r) = Some d -> is_Some (dispatchers w !! d).

Record invariant {Event} (w : World Event) : Prop := {
  inv_store : store_ok w;
  inv_log : log_ok w;
  inv_registry : registry_ok w
}.

(** The subscription at [s] is the only entry of the channel of type [T]. *)
Definition only_subscription {Event} (w : World Event) (T s : nat) (cb : callback) : Prop :=
  exists r d, registry w = Some r /\ StdMap.find T (m_dispatchers r) = Some d /\
    dispatchers w !! d = Some {| m_callbacks := [(s, cb)] |}.

(** The entries of the channel of type [T], in iteration order. *)
Definition channel_entries {Event} (w : World Event) (T : nat) : option (list (nat * callback)) :=
  match registry w with
  | None => None
  | Some r =>
      match StdMap.find T (m_dispatchers r) with
      | None => None
      | Some d => m_callbacks <$> dispatchers w !! d
      end
  end.

(** The calls one dispatch pass over the entries [m] makes. *)
Definition deliveries {Event} (m : list (nat * callback)) (event : Event) : list (obs Event) :=
  map (fun kv => Invoked (fst kv) (snd kv) event) m.

(** A world with the log extended. *)
Definition with_log {Event} (w : World Event) (l : list (obs Event)) : World Event :=
  {| subscriptions := subscriptions w; dispatchers := dispatchers w;
     registry := registry w; next_addr := next_addr w; log := log w ++ l |}.

(** [publish] called once per event, in order. *)
Fixpoint publish_each {Event} (code : callback -> Event -> list (command Event))
    (fuel : nat) (T : nat) (events : list Event) (w : World Event) : outcome Event unit :=
  match events with
  | [] => Returns tt w
  | e :: r =>
      match publish code fuel T e w with
      | Returns _ w' => publish_each code fuel T r w'
      | o => o
      end
  end.

(** The state after a [cancel()] that went through dispatcher [d]. *)
Definition after_cancel {Event} (w : World Event) (s d : nat)
    (x : SpecificDispatcher) : World Event :=
  {| subscriptions := <[s := {| m_specific_dispatcher := None |}]> (subscriptions w);
     dispatchers := <[d := {| m_callbacks := StdMap.erase s (m_callbacks x) |}]> (dispatchers w);
     registry := registry w; next_addr := next_addr w;
     log := log w ++ [Cancelled s] |}.

(** The state after [dispatcher<T>()] has created the channel of [T]. *)
Definition with_channel {Event} (w : World Event) (T : nat)
    (r : EventDispatcher) : World Event :=
  {| subscriptions := subscriptions w;
     dispatchers := <[next_addr w := {| m_callbacks := [] |}]> (dispatchers w);
     registry :=
       Some {| m_dispatchers := StdMap.insert T (next_addr w) (m_dispatchers r) |};
     next_addr := S (next_addr w); log := log w |}.

(** The state after a [subscribe] on the dispatcher at [d]. *)
Definition after_subscribe {Event} (w : World Event) (d : nat)
    (x : SpecificDispatcher) (cb : callback) : World Event :=
  {| subscriptions :=
       <[next_addr w := {| m_specific_dispatcher := Some d |}]> (subscriptions w);
     dispatchers :=
       <[d := {| m_callbacks := StdMap.insert (next_addr w) cb (m_callbacks x) |}]>
         (dispatchers w);
     registry := registry w; next_addr := S (next_addr w); log := log w |}.

(** The state after the storage of the subscription at [s] is released. *)
Definition without_subscription {Event} (w : World Event) (s : nat) : World Event :=
  {| subscriptions := delete s (subscriptions w); dispatchers := dispatchers w;
     registry := registry w; next_addr := next_addr w; log := log w |}.

(** The state after the storage of the dispatcher at [d] is released. *)
Definition without_dispatcher {Event} (w : World Event) (d : nat) : World Event :=
  {| subscriptions := subscriptions w; dispatchers := delete d (dispatchers w);
     registry := registry w; next_addr := next_addr w; log := log w |}.

(** The dispatcher the registry holds for the type [T]. *)
Definition channel_of {Event} (w : World Event) (T : nat) : option nat :=
  match registry w with
  | None => None
  | Some r => StdMap.find T (m_dispatchers r)
  end.

(** ** Scenarios *)

(** [SomeEvent] of [main.cpp]: its [type_index], its payload an integer. *)
Definition SomeEvent : nat := 7.

(** Callbacks that only look at the event, as the lambda of [main.cpp]. *)
Definition observers : callback -> Z -> list (command Z) := fun _ _ => [].

(** Callbacks that act when they receive the event 0, and only look at
    any other: callback 0 then cancels the subscription at address 2,
    callback 1 the one at address 3, callback 2 subscribes callback 9. *)
Definition meddlers : callback -> Z -> list (command Z) :=
  fun cb event =>
    if (event =? 0)%Z then
      match cb with
      | 0 => [Cancel 2]
      | 1 => [Cancel 3]
      | 2 => [Subscribe SomeEvent 9]
      | _ => []
      end
    else [].

(** A fresh dispatcher after [subscribe<SomeEvent>(cb)]: the channel is at
    address 1, the subscription at address 2. *)
Definition one_subscriber (cb : callback) : World Z :=
  {| subscriptions := {[2 := {| m_specific_dispatcher := Some 1 |}]};
     dispatchers := {[1 := {| m_callbacks := [(2, cb)] |}]};
     registry := Some {| m_dispatchers := [(SomeEvent, 1)] |};
     next_addr := 3; log := [] |}.

(** After a second [subscribe<SomeEvent>(cb')]: its subscription is at
    address 3. *)
Definition two_subscribers (cb cb' : callback) : World Z :=
  {| subscriptions :=
       {[2 := {| m_specific_dispatcher := Some 1 |};
         3 := {| m_specific_dispatcher := Some 1 |}]};
     dispatchers := {[1 := {| m_callbacks := [(2, cb); (3, cb')] |}]};
     registry := Some {| m_dispatchers := [(SomeEvent, 1)] |};
     next_addr := 4; log := [] |}.

(** The log of [w'] continues the log of [w]. *)
Definition log_extends {Event} (w w' : World Event) : Prop :=
  exists l, log w' = log w ++ l.

(** Unless the registry has been destroyed, it holds [d] for the type [T]. *)
Definition keeps_channel {Event} (T d : nat) (w : World Event) : Prop :=
  registry w = None \/ channel_of w T = Some d.

(** Two subscribers, callbacks 1 and 5, after one publish of the event 0
    with [meddlers]: callback 1 has cancelled the subscription at 3. *)
Definition after_meddling : World Z :=
  {| subscriptions :=
       {[2 := {| m_specific_dispatcher := Some 1 |};
         3 := {| m_specific_dispatcher := None |}]};
     dispatchers := {[1 := {| m_callbacks := [(2, 1)] |}]};
     registry := Some {| m_dispatchers := [(SomeEvent, 1)] |};
     next_addr := 4; log := [Invoked 2 1 0%Z; Cancelled 3] |}.

(** What holds of the state a call ends in: [P] if the call returns, [Q]
    if it stops in a fault or for want of fuel. *)
Definition ends_in {Event A} (P Q : World Event -> Prop)
    (o : outcome Event A) : Prop :=
  match o with
  | Returns _ w => P w
  | Faults _ w => Q w
  | OutOfFuel w => Q w
  end.

(** The store and the log are consistent (the registry may be half way
    through its teardown). *)
Definition sound {Event} (w : World Event) : Prop := store_ok w /\ log_ok w.

(** ** The registry's map, and what a subscriber has been called with *)

(** The map of dispatchers is a [std::map] of owning pointers: sorted,
    no dispatcher under two types, every live dispatcher under some type;
    once the registry is destroyed no dispatcher is left. *)
Record registry_wf {Event} (w : World Event) : Prop := {
  wf_sorted :
    forall r, registry w = Some r -> StdMap.sorted (m_dispatchers r);
  wf_injective :
    forall r T T' d, registry w = Some r ->
      StdMap.find T (m_dispatchers r) = Some d ->
      StdMap.find T' (m_dispatchers r) = Some d -> T = T';
  wf_owns :
    forall r d x, registry w = Some r -> dispatchers w !! d = Some x ->
      exists T, StdMap.find T (m_dispatchers r) = Some d;
  wf_gone :
    registry w = None -> dispatchers w = ∅
}.

(** The calls a log records for the subscription at [s]: callback and
    event, in order. *)
Definition calls_for {Event} (s : nat) (l : list (obs Event)) : list (callback * Event) :=
  flat_map
    (fun o =>
       match o with
       | Invoked s' cb e => if s' =? s then [(cb, e)] else []
       | Cancelled _ => []
       end) l.

(** The scope of [main.cpp]: subscribe, publish some events, let the handle
    at [s] go; then publish some more. *)
Definition scoped_subscription {Event} (T : nat) (cb : callback) (s : nat)
    (inside outside : list Event) : list (command Event) :=
  [Subscribe T cb] ++ map (Publish T) inside ++ [Delete s] ++ map (Publish T) outside.

(** Callback 3 publishes the event it receives again, under the same
    type; the others only look. *)
Definition echo : callback -> Z -> list (command Z) :=
  fun cb event =>
    match cb with
    | 3 => [Publish SomeEvent event]
    | _ => []
    end.

(** The state after a write to the dispatcher at [d]. *)
Definition store_dispatcher_state {Event} (w : World Event) (d : nat)
    (x : SpecificDispatcher) : World Event :=
  {| subscriptions := subscriptions w; dispatchers := <[d := x]> (dispatchers w);
     registry := registry w; next_addr := next_addr w; log := log w |}.

(** A fresh dispatcher after [subscribe<SomeEvent>(0)] and a [subscribe]
    of callback 1 to a second type, 8: the second channel is at address 3,
    its subscription at address 4. *)
Definition two_types : World Z :=
  {| subscriptions :=
       {[2 := {| m_specific_dispatcher := Some 1 |};
         4 := {| m_specific_dispatcher := Some 3 |}]};
     dispatchers :=
       {[1 := {| m_callbacks := [(2, 0)] |}; 3 := {| m_callbacks := [(4, 1)] |}]};
     registry := Some {| m_dispatchers := [(SomeEvent, 1); (8, 3)] |};
     next_addr := 5; log := [] |}.

(** The state a teardown of the fresh dispatcher returns in. *)
Definition torn_down : World Z :=
  {| subscriptions := ∅; dispatchers := ∅; registry := None;
     next_addr := 1; log := [] |}.


(** ** Facts about the [std::map] model *)

Section StdMapFacts.
Context {V : Type}.
Implicit Types (m : list (nat * V)) (k : nat) (v : V).

Lemma stdmap_find_above k m :
  Forall (fun kv => k < fst kv) m -> StdMap.find k m = None.
Proof.
  induction 1 as [|[k' v'] r Hk _ IH]; simpl; [done|].
  simpl in Hk. destruct (Nat.eqb_spec k k'); [lia|done].
Qed.

Lemma stdmap_find_erase_ne k k' m :
  k <> k' -> StdMap.find k' (StdMap.erase k m) = StdMap.find k' m.
Proof.
  intros Hne. induction m as [|[k0 v0] r IH]; simpl; [done|].
  destruct (Nat.eqb_spec k k0) as [->|Hk].
  - destruct (Nat.eqb_spec k' k0); [congruence|done].
  - simpl. by rewrite IH.
Qed.

Lemma stdmap_find_erase_eq k m :
  StdMap.sorted m -> StdMap.find k (StdMap.erase k m) = None.
Proof.
  induction m as [|[k0 v0] r IH]; simpl; [done|].
  intros [Hall Hs]. destruct (Nat.eqb_spec k k0) as [->|Hk].
  - by apply stdmap_find_above.
  - simpl. destruct (Nat.eqb_spec k k0); [done|]. by apply IH.
Qed.

Lemma stdmap_find_insert_ne k k' v m :
  k <> k' -> StdMap.find k' (StdMap.insert k v m) = StdMap.find k' m.
Proof.
  intros Hne. induction m as [|[k0 v0] r IH]; simpl.
  - destruct (Nat.eqb_spec k' k); [congruence|done].
  - destruct (Nat.ltb_spec k k0); simpl.
    + destruct (Nat.eqb_spec k' k); [congruence|done].
    + destruct (Nat.eqb_spec k k0); simpl; [done|]. by rewrite IH.
Qed.

Lemma stdmap_find_insert_new k v m :
  StdMap.find k m = None -> StdMap.find k (StdMap.insert k v m) = Some v.
Proof.
  induction m as [|[k0 v0] r IH]; simpl.
  - by rewrite Nat.eqb_refl.
  - destruct (Nat.eqb_spec k k0) as [->|Hk]; [done|]. intros Hf.
    destruct (Nat.ltb_spec k k0); simpl.
    + by rewrite Nat.eqb_refl.
    + destruct (Nat.eqb_spec k k0); [done|]. by apply IH.
Qed.

Lemma stdmap_Forall_erase (P : nat * V -> Prop) k m :
  Forall P m -> Forall P (StdMap.erase k m).
Proof.
  induction 1 as [|[k0 v0] r H0 Hr IH]; simpl; [done|].
  destruct (k =? k0); [done|]. by constructor.
Qed.

Lemma stdmap_sorted_erase k m :
  StdMap.sorted m -> StdMap.sorted (StdMap.erase k m).
Proof.
  induction m as [|[k0 v0] r IH]; simpl; [done|].
  intros [Hall Hs]. destruct (k =? k0); [done|]. simpl. split.
  - by apply stdmap_Forall_erase.
  - by apply IH.
Qed.

Lemma stdmap_Forall_insert (P : nat * V -> Prop) k v m :
  P (k, v) -> Forall P m -> Forall P (StdMap.insert k v m).
Proof.
  intros Hk. induction 1 as [|[k0 v0] r H0 Hr IH]; simpl.
  - by repeat constructor.
  - destruct (k <? k0); [by repeat constructor|].
    destruct (k =? k0); by constructor.
Qed.

Lemma stdmap_sorted_insert k v m :
  StdMap.sorted m -> StdMap.sorted (StdMap.insert k v m).
Proof.
  induction m as [|[k0 v0] r IH]; simpl; [done|].
  intros [Hall Hs]. destruct (Nat.ltb_spec k k0); simpl.
  - split; [|done]. constructor; [done|].
    eapply Forall_impl; [exact Hall|]. simpl. intros; lia.
  - destruct (Nat.eqb_spec k k0); simpl; [done|]. split.
    + apply stdmap_Forall_insert; [simpl; lia|done].
    + by apply IH.
Qed.

(** A key above all others goes to the end. *)
Lemma stdmap_insert_last k v m :
  Forall (fun kv => fst kv < k) m -> StdMap.insert k v m = m ++ [(k, v)].
Proof.
  induction 1 as [|[k0 v0] r H0 Hr IH]; simpl; [done|].
  simpl in H0. destruct (Nat.ltb_spec k k0); [lia|].
  destruct (Nat.eqb_spec k k0); [lia|]. by rewrite IH.
Qed.

(** In a sorted map the node at [k] is found, and [++it] reaches the node
    that follows it. *)
Lemma stdmap_find_middle k v pre post :
  StdMap.sorted (pre ++ (k, v) :: post) ->
  StdMap.find k (pre ++ (k, v) :: post) = Some v.
Proof.
  induction pre as [|[k0 v0] r IH]; simpl.
  - by rewrite Nat.eqb_refl.
  - intros [Hall Hs]. apply Forall_app in Hall as [_ Hall].
    apply Forall_cons in Hall as [Hlt _]. simpl in Hlt.
    destruct (Nat.eqb_spec k k0); [lia|]. by apply IH.
Qed.

Lemma stdmap_next_middle k v pre post :
  StdMap.sorted (pre ++ (k, v) :: post) ->
  StdMap.next k (pre ++ (k, v) :: post) = StdMap.begin post.
Proof.
  induction pre as [|[k0 v0] r IH]; simpl.
  - intros [Hall _]. rewrite Nat.ltb_irrefl.
    destruct post as [|[k1 v1] post]; simpl; [done|].
    apply Forall_cons in Hall as [Hlt _]. simpl in Hlt.
    destruct (Nat.ltb_spec k k1); [done|lia].
  - intros [Hall Hs]. apply Forall_app in Hall as [_ Hall].
    apply Forall_cons in Hall as [Hlt _]. simpl in Hlt.
    destruct (Nat.ltb_spec k k0); [lia|]. by apply IH.
Qed.

Lemma stdmap_begin_find k m :
  StdMap.begin m = Some k -> is_Some (StdMap.find k m).
Proof.
  destruct m as [|[k0 v0] r]; simpl; [done|].
  intros [= ->]. rewrite Nat.eqb_refl. by eexists.
Qed.

Lemma stdmap_find_In k v m : StdMap.find k m = Some v -> In (k, v) m.
Proof.
  induction m as [|[k0 v0] r IH]; simpl; [done|].
  destruct (Nat.eqb_spec k k0) as [->|]; [intros [= ->]; by left|].
  intros Hf. right. by apply IH.
Qed.

Lemma stdmap_In_find k v m :
  StdMap.sorted m -> In (k, v) m -> StdMap.find k m = Some v.
Proof.
  induction m as [|[k0 v0] r IH]; simpl; [done|].
  intros [Hall Hs] [[= -> ->]|Hin].
  - by rewrite Nat.eqb_refl.
  - destruct (Nat.eqb_spec k k0) as [->|]; [|by apply IH].
    rewrite Forall_forall in Hall. apply list_elem_of_In in Hin.
    apply Hall in Hin. simpl in Hin. lia.
Qed.

Lemma stdmap_erase_middle k v pre post :
  StdMap.find k pre = None ->
  StdMap.erase k (pre ++ (k, v) :: post) = pre ++ post.
Proof.
  induction pre as [|[k0 v0] pre IH]; simpl.
  - by rewrite Nat.eqb_refl.
  - destruct (Nat.eqb_spec k k0); [done|]. intros Hf. by rewrite IH.
Qed.

End StdMapFacts.

(** ** The operations, one by one *)

Section Operations.
Context {Event : Type}.
Implicit Types (w : World Event) (s d k T : nat) (cb : callback).

Lemma bind_returns {A B} (c : M Event A) (f : A -> M Event B) w b w' :
  bind c f w = Returns b w' ->
  exists a w1, c w = Returns a w1 /\ f a w1 = Returns b w'.
Proof.
  unfold bind. destruct (c w) as [a w1| |]; [|done..]. intros H. by exists a, w1.
Qed.

Lemma cancel_active w s d x :
  subscriptions w !! s = Some {| m_specific_dispatcher := Some d |} ->
  dispatchers w !! d = Some x ->
  cancel s w = Returns tt (after_cancel w s d x).
Proof.
  intros Hs Hd. unfold cancel, bind, deref_subscription. rewrite Hs. simpl.
  unfold unsubscribe, bind, deref_dispatcher. by rewrite Hd.
Qed.

Lemma cancel_null w s :
  subscriptions w !! s = Some {| m_specific_dispatcher := None |} ->
  cancel s w = Faults NullDereference w.
Proof.
  intros Hs. unfold cancel, bind, deref_subscription. by rewrite Hs.
Qed.

Lemma cancel_returns w s w' :
  cancel s w = Returns tt w' ->
  exists d x,
    subscriptions w !! s = Some {| m_specific_dispatcher := Some d |} /\
    dispatchers w !! d = Some x /\ w' = after_cancel w s d x.
Proof.
  unfold cancel, bind, deref_subscription.
  destruct (subscriptions w !! s) as [[[d|]]|] eqn:Hs; simpl; [|done..].
  unfold unsubscribe, bind, deref_dispatcher.
  destruct (dispatchers w !! d) as [x|] eqn:Hd; simpl; [|done].
  intros [= <-]. by exists d, x.
Qed.

Lemma ends_in_weaken {A} (P P' Q Q' : World Event -> Prop) (o : outcome Event A) :
  (forall w, P w -> P' w) -> (forall w, Q w -> Q' w) ->
  ends_in P Q o -> ends_in P' Q' o.
Proof. destruct o; simpl; eauto. Qed.

Lemma ends_in_returns {A} (P Q : World Event -> Prop) (o : outcome Event A) a w :
  ends_in P Q o -> o = Returns a w -> P w.
Proof. by intros H ->. Qed.

Lemma ends_in_final {A} (P Q : World Event -> Prop) (o : outcome Event A) :
  (forall w, P w -> Q w) -> ends_in P Q o -> Q (final o).
Proof. destruct o; simpl; eauto. Qed.

Lemma bind_ends_in {A B} (P0 P Q : World Event -> Prop)
    (c : M Event A) (f : A -> M Event B) w :
  ends_in P0 Q (c w) ->
  (forall a w1, c w = Returns a w1 -> P0 w1 -> ends_in P Q (f a w1)) ->
  ends_in P Q (bind c f w).
Proof. unfold bind. destruct (c w); simpl; eauto. Qed.

(** A [cancel()] that does not return faults where it started. *)
Lemma cancel_cases w s :
  (exists w', cancel s w = Returns tt w') \/ (exists f, cancel s w = Faults f w).
Proof.
  unfold cancel, bind, deref_subscription.
  destruct (subscriptions w !! s) as [[[d|]]|]; simpl; eauto.
  unfold unsubscribe, bind, deref_dispatcher.
  destruct (dispatchers w !! d); simpl; eauto.
Qed.

Lemma delete_subscription_cases w s :
  (exists w', delete_subscription s w = Returns tt w') \/
  (exists f, delete_subscription s w = Faults f w).
Proof.
  unfold delete_subscription, bind.
  destruct (cancel_cases w s) as [[w' ->]|[f ->]]; eauto.
Qed.

Lemma dispatcher_cases w T :
  (exists d w', dispatcher T w = Returns d w') \/
  (exists f, dispatcher T w = Faults f w).
Proof.
  unfold dispatcher, bind, the_registry.
  destruct (registry w) as [r|]; simpl; eauto.
  destruct (StdMap.find T (m_dispatchers r)); simpl; eauto.
Qed.

(** A second [cancel()] on a live handle is a call through [nullptr]. *)
Lemma cancel_cancel w s w' :
  cancel s w = Returns tt w' -> cancel s w' = Faults NullDereference w'.
Proof.
  intros (d & x & Hs & Hd & ->)%cancel_returns.
  apply cancel_null. simpl. by rewrite lookup_insert_eq.
Qed.

Lemma active_returns w s b w' :
  active s w = Returns b w' ->
  w' = w /\ exists x, subscriptions w !! s = Some x /\
    b = match m_specific_dispatcher x with Some _ => true | None => false end.
Proof.
  unfold active, bind, deref_subscription.
  destruct (subscriptions w !! s) as [x|]; simpl; [|done].
  unfold ret. intros [= <- <-]. eauto.
Qed.

Lemma active_live w s x :
  subscriptions w !! s = Some x ->
  active s w =
    Returns (match m_specific_dispatcher x with Some _ => true | None => false end) w.
Proof. intros Hs. unfold active, bind, deref_subscription. by rewrite Hs. Qed.

End Operations.

(** ** The invariant is kept by every operation that returns *)

Section Preservation.
Context {Event : Type}.
Implicit Types (w : World Event) (s d k T : nat) (cb : callback).

Lemma store_ok_after_cancel w s d x :
  store_ok w ->
  subscriptions w !! s = Some {| m_specific_dispatcher := Some d |} ->
  dispatchers w !! d = Some x ->
  store_ok (after_cancel w s d x).
Proof.
  intros [Hsf Hdf Hso Hen Hbo] Hs Hd. split; simpl.
  - intros s' y. rewrite lookup_insert. case_decide; subst; eauto.
  - intros d' y. rewrite lookup_insert. case_decide; subst; eauto.
  - intros d' y. rewrite lookup_insert. case_decide; subst; [|eauto].
    intros [= <-]. simpl. apply stdmap_sorted_erase. eauto.
  - intros d' y s' cb. rewrite lookup_insert. case_decide as Hdd; subst.
    + intros [= <-]. simpl. intros Hf.
      destruct (decide (s = s')) as [->|Hne].
      * rewrite stdmap_find_erase_eq in Hf; [done|eauto].
      * rewrite stdmap_find_erase_ne in Hf by done.
        rewrite lookup_insert_ne by done. eauto.
    + intros Hd' Hf. pose proof (Hen _ _ _ _ Hd' Hf) as Hs'.
      rewrite lookup_insert_ne; [done|]. intros ->. congruence.
  - intros s' d'. rewrite lookup_insert. case_decide; subst; [done|].
    intros Hs'. destruct (Hbo _ _ Hs') as (y & Hy & Hf).
    destruct (decide (d = d')) as [->|Hne].
    + rewrite lookup_insert_eq. eexists; split; [done|]. simpl.
      rewrite stdmap_find_erase_ne by done. congruence.
    + rewrite lookup_insert_ne by done. eauto.
Qed.

Lemma no_delivery_snoc_cancelled (l : list (obs Event)) s :
  no_delivery_after_cancel l -> no_delivery_after_cancel (l ++ [Cancelled s]).
Proof.
  intros Hl l1 l2 s' cb e Heq Hin.
  destruct l2 as [|o l2 _] using rev_ind; [done|].
  rewrite app_comm_cons, app_assoc in Heq.
  apply app_inj_tail in Heq as [-> <-].
  apply in_app_or in Hin as [Hin|[Hin|[]]]; [|done].
  by eapply Hl.
Qed.

Lemma no_delivery_snoc_invoked (l : list (obs Event)) s cb e :
  no_delivery_after_cancel l -> ~ In (Cancelled s) l ->
  no_delivery_after_cancel (l ++ [Invoked s cb e]).
Proof.
  intros Hl Hs l1 l2 s' cb' e' Heq Hin.
  destruct l2 as [|o l2 _] using rev_ind; [done|].
  rewrite app_comm_cons, app_assoc in Heq.
  apply app_inj_tail in Heq as [-> <-].
  apply in_app_or in Hin as [Hin|[[= -> -> ->]|[]]].
  - by eapply Hl.
  - apply Hs. apply in_or_app. right. by left.
Qed.

Lemma log_ok_after_cancel w s d x :
  log_ok w ->
  subscriptions w !! s = Some {| m_specific_dispatcher := Some d |} ->
  store_ok w ->
  log_ok (after_cancel w s d x).
Proof.
  intros [Hcf Hcn Hnc Hor] Hs Hst. split; simpl.
  - intros s' [Hin|[[= <-]|[]]]%in_app_or; [eauto|].
    eapply ok_subscription_fresh; eauto.
  - intros s' y Hin. rewrite lookup_insert. case_decide; subst.
    + by intros [= <-].
    + apply in_app_or in Hin as [Hin|[[= <-]|[]]]; [eauto|done].
  - intros s'. rewrite lookup_insert. case_decide; subst.
    + intros _. apply in_or_app. right. by left.
    + intros Hs'. apply in_or_app. left. eauto.
  - by apply no_delivery_snoc_cancelled.
Qed.

Lemma registry_ok_after_cancel w s d x :
  registry_ok w -> dispatchers w !! d = Some x ->
  registry_ok (after_cancel w s d x).
Proof.
  intros Hr Hd r T d' Hreg Hf. simpl in *.
  rewrite lookup_insert. case_decide; subst; [by eexists|]. by eapply Hr.
Qed.

Lemma cancel_store_ok w s w' :
  store_ok w -> cancel s w = Returns tt w' -> store_ok w'.
Proof.
  intros Hw (d & x & Hs & Hd & ->)%cancel_returns.
  by apply store_ok_after_cancel.
Qed.

Lemma cancel_invariant w s w' :
  invariant w -> cancel s w = Returns tt w' -> invariant w'.
Proof.
  intros [Hst Hlg Hrg] (d & x & Hs & Hd & ->)%cancel_returns. split.
  - by apply store_ok_after_cancel.
  - by eapply log_ok_after_cancel.
  - by apply registry_ok_after_cancel.
Qed.

Lemma delete_subscription_returns w s w' :
  delete_subscription s w = Returns tt w' ->
  exists w1, cancel s w = Returns tt w1 /\ w' = without_subscription w1 s.
Proof.
  unfold delete_subscription. intros (a & w1 & Hc & Hf)%bind_returns.
  destruct a. exists w1. split; [done|]. by injection Hf as <-.
Qed.

Lemma without_subscription_invariant w s :
  invariant w ->
  subscriptions w !! s = Some {| m_specific_dispatcher := None |} ->
  invariant (without_subscription w s).
Proof.
  intros [[Hsf Hdf Hso Hen Hbo] [Hcf Hcn Hnc Hor] Hrg] Hs.
  split; [split|split|]; simpl; try done.
  - intros s' y [_ Hy]%lookup_delete_Some. eauto.
  - intros d x s' cb Hd Hf. pose proof (Hen _ _ _ _ Hd Hf) as Hs'.
    rewrite lookup_delete_ne; [done|]. intros ->. congruence.
  - intros s' d [_ Hy]%lookup_delete_Some. eauto.
  - intros s' y Hin [_ Hy]%lookup_delete_Some. eauto.
  - intros s' [_ Hy]%lookup_delete_Some. eauto.
Qed.

Lemma delete_subscription_invariant w s w' :
  invariant w -> delete_subscription s w = Returns tt w' -> invariant w'.
Proof.
  intros Hw (w1 & Hc & ->)%delete_subscription_returns.
  apply without_subscription_invariant; [by eapply cancel_invariant|].
  apply cancel_returns in Hc as (d & x & _ & _ & ->). simpl.
  by rewrite lookup_insert_eq.
Qed.

Lemma dispatcher_returns w T d w' :
  dispatcher T w = Returns d w' ->
  exists r, registry w = Some r /\
    ((StdMap.find T (m_dispatchers r) = Some d /\ w' = w) \/
     (StdMap.find T (m_dispatchers r) = None /\ d = next_addr w /\
      w' = with_channel w T r)).
Proof.
  unfold dispatcher, bind, the_registry.
  destruct (registry w) as [r|] eqn:Hr; simpl; [|done].
  destruct (StdMap.find T (m_dispatchers r)) as [d'|] eqn:Hf; simpl;
    unfold ret; intros [= <- <-]; exists r; (split; [done|]); rewrite Hf.
  - by left.
  - by right.
Qed.

Lemma with_channel_invariant w T r :
  invariant w -> registry w = Some r ->
  StdMap.find T (m_dispatchers r) = None ->
  invariant (with_channel w T r).
Proof.
  intros [[Hsf Hdf Hso Hen Hbo] [Hcf Hcn Hnc Hor] Hrg] Hr Hf.
  assert (Hfresh : dispatchers w !! next_addr w = None).
  { destruct (dispatchers w !! next_addr w) eqn:E; [|done].
    apply Hdf in E. lia. }
  split; [split|split|]; simpl; try done.
  - intros s y Hs. apply Hsf in Hs. lia.
  - intros d x. rewrite lookup_insert. case_decide; subst; [lia|].
    intros Hd%Hdf. lia.
  - intros d x. rewrite lookup_insert. case_decide; subst; [by intros [= <-]|eauto].
  - intros d x s cb. rewrite lookup_insert. case_decide; subst; [by intros [= <-]|eauto].
  - intros s d Hs. destruct (Hbo _ _ Hs) as (x & Hx & Hfx). exists x. split; [|done].
    rewrite lookup_insert_ne; [done|]. intros <-. congruence.
  - intros s Hin%Hcf. lia.
  - intros r' T' d [= <-]. simpl.
    destruct (decide (T = T')) as [<-|Hne].
    + rewrite stdmap_find_insert_new by done. intros [= <-].
      rewrite lookup_insert_eq. by eexists.
    + rewrite stdmap_find_insert_ne by done. intros Hd.
      destruct (Hrg _ _ _ Hr Hd) as [x Hx]. exists x.
      rewrite lookup_insert_ne; [done|]. intros <-. congruence.
Qed.

Lemma dispatcher_invariant w T d w' :
  invariant w -> dispatcher T w = Returns d w' -> invariant w'.
Proof.
  intros Hw (r & Hr & [[_ ->]|(Hf & _ & ->)])%dispatcher_returns; [done|].
  by apply with_channel_invariant.
Qed.

(** The dispatcher that [dispatcher<T>()] returns is alive. *)
Lemma dispatcher_alive w T d w' :
  invariant w -> dispatcher T w = Returns d w' -> is_Some (dispatchers w' !! d).
Proof.
  intros Hw (r & Hr & [[Hf ->]|(Hf & -> & ->)])%dispatcher_returns.
  - by eapply inv_registry.
  - simpl. rewrite lookup_insert_eq. by eexists.
Qed.

Lemma SpecificDispatcher_subscribe_returns w d cb s w' :
  SpecificDispatcher_subscribe d cb w = Returns s w' ->
  exists x, dispatchers w !! d = Some x /\ s = next_addr w /\
    w' = after_subscribe w d x cb.
Proof.
  unfold SpecificDispatcher_subscribe, bind, new_subscription, deref_dispatcher.
  simpl. destruct (dispatchers w !! d) as [x|] eqn:Hd; simpl; [|done].
  unfold ret. intros [= <- <-]. by exists x.
Qed.

Lemma SpecificDispatcher_subscribe_alive w d cb x :
  dispatchers w !! d = Some x ->
  SpecificDispatcher_subscribe d cb w =
    Returns (next_addr w) (after_subscribe w d x cb).
Proof.
  intros Hd.
  unfold SpecificDispatcher_subscribe, bind, new_subscription, deref_dispatcher.
  simpl. by rewrite Hd.
Qed.

(** No entry of any map is keyed by an address not yet handed out. *)
Lemma fresh_not_entry w d x s :
  store_ok w -> dispatchers w !! d = Some x -> next_addr w <= s ->
  StdMap.find s (m_callbacks x) = None.
Proof.
  intros Hw Hd Hle. destruct (StdMap.find s (m_callbacks x)) as [cb|] eqn:Hf; [|done].
  pose proof (ok_entry w Hw _ _ _ _ Hd Hf) as Hs.
  apply (ok_subscription_fresh w Hw) in Hs. lia.
Qed.

Lemma after_subscribe_invariant w d x cb :
  invariant w -> dispatchers w !! d = Some x ->
  invariant (after_subscribe w d x cb).
Proof.
  intros [Hst [Hcf Hcn Hnc Hor] Hrg] Hd.
  pose proof Hst as [Hsf Hdf Hso Hen Hbo].
  assert (Hfresh : subscriptions w !! next_addr w = None).
  { destruct (subscriptions w !! next_addr w) eqn:E; [|done].
    apply Hsf in E. lia. }
  split; [split|split|]; simpl; try done.
  - intros s y. rewrite lookup_insert. case_decide; subst; [lia|].
    intros Hs%Hsf. lia.
  - intros d' y. rewrite lookup_insert. case_decide; subst.
    + intros _. apply Hdf in Hd. lia.
    + intros Hd'%Hdf. lia.
  - intros d' y. rewrite lookup_insert. case_decide; subst; [|eauto].
    intros [= <-]. simpl. apply stdmap_sorted_insert. eauto.
  - intros d' y s cb'. rewrite lookup_insert. case_decide; subst.
    + intros [= <-]. simpl. destruct (decide (next_addr w = s)) as [<-|Hne].
      * by rewrite lookup_insert_eq.
      * rewrite stdmap_find_insert_ne by done.
        rewrite lookup_insert_ne by done. eauto.
    + intros Hd' Hf. rewrite lookup_insert_ne; [eauto|].
      intros <-. by rewrite (fresh_not_entry w d' y (next_addr w)) in Hf.
  - intros s d'. rewrite lookup_insert. case_decide; subst.
    + intros [= <-]. rewrite lookup_insert_eq. eexists. split; [done|]. simpl.
      rewrite stdmap_find_insert_new; [by eexists|].
      by apply (fresh_not_entry w d x).
    + intros Hs. destruct (Hbo _ _ Hs) as (y & Hy & Hfy).
      destruct (decide (d = d')) as [->|Hne].
      * rewrite lookup_insert_eq. eexists. split; [done|]. simpl.
        rewrite stdmap_find_insert_ne by done. congruence.
      * rewrite lookup_insert_ne by done. eauto.
  - intros s Hin%Hcf. lia.
  - intros s y Hin. rewrite lookup_insert. case_decide; subst; [|eauto].
    apply Hcf in Hin. lia.
  - intros s. rewrite lookup_insert. case_decide; subst; [done|eauto].
  - intros r T d' Hr Hf. simpl in *. rewrite lookup_insert.
    case_decide; subst; [by eexists|]. by eapply Hrg.
Qed.

Lemma subscribe_invariant w T cb s w' :
  invariant w -> subscribe T cb w = Returns s w' -> invariant w'.
Proof.
  unfold subscribe. intros Hw (d & w1 & Hd & Hs)%bind_returns.
  apply SpecificDispatcher_subscribe_returns in Hs as (x & Hx & _ & ->).
  apply after_subscribe_invariant; [by eapply dispatcher_invariant|done].
Qed.

Lemma with_log_invoked_invariant w d x k cb (e : Event) :
  invariant w -> dispatchers w !! d = Some x ->
  StdMap.find k (m_callbacks x) = Some cb ->
  invariant (with_log w [Invoked k cb e]).
Proof.
  intros [Hst [Hcf Hcn Hnc Hor] Hrg] Hd Hf.
  pose proof Hst as [Hsf Hdf Hso Hen Hbo].
  split; [split|split|]; simpl; try done.
  - intros s [Hin|[[=]|[]]]%in_app_or. eauto.
  - intros s y [Hin|[[=]|[]]]%in_app_or. eauto.
  - intros s Hs. apply in_or_app. left. eauto.
  - apply no_delivery_snoc_invoked; [done|]. intros Hin.
    pose proof (Hen _ _ _ _ Hd Hf) as Hs. by apply (Hcn _ _ Hin) in Hs.
Qed.

Lemma range_for_end fuel d (body : nat -> callback -> M Event unit) w :
  range_for fuel d body None w = Returns tt w.
Proof. by destruct fuel. Qed.

(** A loop keeps what its body keeps at every node it visits. *)
Lemma range_for_preserves (P : World Event -> Prop) d
    (body : nat -> callback -> M Event unit) :
  (forall k cb w w' x, P w -> dispatchers w !! d = Some x ->
     StdMap.find k (m_callbacks x) = Some cb ->
     body k cb w = Returns tt w' -> P w') ->
  forall fuel it w w',
    P w -> range_for fuel d body it w = Returns tt w' -> P w'.
Proof.
  intros Hbody. induction fuel as [|fuel IH]; intros [k|] w w' Hw; simpl;
    try done; try (by intros [= <-]).
  unfold bind at 1, deref_dispatcher at 1.
  destruct (dispatchers w !! d) as [x|] eqn:Hd; simpl; [|done].
  destruct (StdMap.find k (m_callbacks x)) as [cb|] eqn:Hf; [|done].
  intros ([] & w1 & Hb & Hrest)%bind_returns.
  revert Hrest. unfold bind at 1, deref_dispatcher at 1.
  destruct (dispatchers w1 !! d) as [x1|] eqn:Hd1; simpl; [|done].
  destruct (StdMap.find k (m_callbacks x1)); [|done].
  apply IH. by eapply Hbody.
Qed.

(** In a consistent store the destructor of a dispatcher with an entry
    erases the node its loop stands on, and the increment faults. *)
Lemma destroy_SpecificDispatcher_nonempty w d x k cb m :
  store_ok w -> dispatchers w !! d = Some x -> m_callbacks x = (k, cb) :: m ->
  destroy_SpecificDispatcher d w = Faults InvalidIterator (after_cancel w k d x).
Proof.
  intros Hw Hd Hm.
  assert (Hf : StdMap.find k (m_callbacks x) = Some cb).
  { rewrite Hm. simpl. by rewrite Nat.eqb_refl. }
  pose proof (ok_entry w Hw _ _ _ _ Hd Hf) as Hs.
  unfold destroy_SpecificDispatcher, bind at 1, deref_dispatcher at 1.
  rewrite Hd. simpl. rewrite Hm at 1 2. simpl.
  unfold bind at 1. unfold bind at 1, deref_dispatcher at 1. rewrite Hd. simpl.
  rewrite Hf. unfold bind at 1.
  rewrite (cancel_active w k d x Hs Hd).
  unfold bind, deref_dispatcher. simpl. rewrite lookup_insert_eq. simpl.
  rewrite stdmap_find_erase_eq; [done|]. by eapply ok_sorted.
Qed.

Lemma destroy_SpecificDispatcher_empty w d :
  dispatchers w !! d = Some {| m_callbacks := [] |} ->
  destroy_SpecificDispatcher d w = Returns tt (without_dispatcher w d).
Proof.
  intros Hd. unfold destroy_SpecificDispatcher, bind, deref_dispatcher.
  by rewrite Hd.
Qed.

Lemma destroy_SpecificDispatcher_returns w d w' :
  store_ok w -> destroy_SpecificDispatcher d w = Returns tt w' ->
  dispatchers w !! d = Some {| m_callbacks := [] |} /\
  w' = without_dispatcher w d.
Proof.
  intros Hw Hdes. destruct (dispatchers w !! d) as [[[|[k cb] m]]|] eqn:Hd.
  - rewrite destroy_SpecificDispatcher_empty in Hdes by done.
    by injection Hdes as <-.
  - by rewrite (destroy_SpecificDispatcher_nonempty w d _ k cb m Hw Hd eq_refl) in Hdes.
  - revert Hdes. unfold destroy_SpecificDispatcher, bind, deref_dispatcher.
    by rewrite Hd.
Qed.

Lemma without_dispatcher_ok w d :
  store_ok w -> log_ok w ->
  dispatchers w !! d = Some {| m_callbacks := [] |} ->
  store_ok (without_dispatcher w d) /\ log_ok (without_dispatcher w d).
Proof.
  intros [Hsf Hdf Hso Hen Hbo] [Hcf Hcn Hnc Hor] Hd.
  split; split; simpl; try done.
  - intros d' y [_ Hy]%lookup_delete_Some. eauto.
  - intros d' y [_ Hy]%lookup_delete_Some. eauto.
  - intros d' y s cb [_ Hy]%lookup_delete_Some. eauto.
  - intros s d' Hs. destruct (Hbo _ _ Hs) as (y & Hy & Hfy). exists y.
    split; [|done]. apply lookup_delete_Some. split; [|done].
    intros <-. rewrite Hd in Hy. injection Hy as <-. by destruct Hfy.
Qed.

Lemma destroy_all_ok ds w w' :
  store_ok w -> log_ok w -> destroy_all ds w = Returns tt w' ->
  store_ok w' /\ log_ok w'.
Proof.
  revert w. induction ds as [|[T d] ds IH]; intros w Hst Hlg; simpl.
  - by intros [= <-].
  - intros ([] & w1 & Hd & Hrest)%bind_returns.
    apply destroy_SpecificDispatcher_returns in Hd as [Hd ->]; [|done].
    destruct (without_dispatcher_ok w d) as [? ?]; eauto.
Qed.

Lemma destroy_all_registry ds w w' :
  destroy_all ds w = Returns tt w' -> registry w' = registry w.
Proof.
  revert w. induction ds as [|[T d] ds IH]; intros w; simpl.
  - by intros [= <-].
  - intros ([] & w1 & Hd & Hrest)%bind_returns. rewrite (IH _ Hrest).
    revert Hd. unfold destroy_SpecificDispatcher.
    intros (x & w2 & Hx & ([] & w3 & Hloop & Hfree)%bind_returns)%bind_returns.
    injection Hfree as <-. simpl.
    assert (Hw2 : w2 = w).
    { revert Hx. unfold deref_dispatcher. by destruct (dispatchers w !! d); intros [= _ <-]. }
    subst w2. revert Hloop.
    apply (range_for_preserves (fun w0 => registry w0 = registry w)); [|done].
    intros k cb w0 w0' _ Hw0 _ _ (d0 & x0 & _ & _ & ->)%cancel_returns. done.
Qed.

Lemma destroy_EventDispatcher_invariant w w' :
  invariant w -> destroy_EventDispatcher w = Returns tt w' -> invariant w'.
Proof.
  intros [Hst Hlg Hrg]. unfold destroy_EventDispatcher, bind at 1, the_registry.
  destruct (registry w) as [r|] eqn:Hr; simpl; [|done].
  intros ([] & w1 & Hall & Hset)%bind_returns. injection Hset as <-.
  destruct (destroy_all_ok _ _ _ Hst Hlg Hall) as [[] []].
  split; [split|split|]; simpl; try done.
Qed.

(** In a state of the invariant [subscribe] stops only where it started:
    the dispatcher it reaches through the registry is alive. *)
Lemma subscribe_cases w T cb :
  invariant w ->
  (exists s w', subscribe T cb w = Returns s w') \/
  (exists f, subscribe T cb w = Faults f w).
Proof.
  intros Hw. unfold subscribe, bind.
  destruct (dispatcher_cases w T) as [(d & w1 & Hd)|[f Hf]]; rewrite ?Hd, ?Hf; eauto.
  destruct (dispatcher_alive w T d w1 Hw Hd) as [x Hx].
  rewrite (SpecificDispatcher_subscribe_alive w1 d cb x Hx). eauto.
Qed.

Lemma destroy_SpecificDispatcher_cases w d :
  store_ok w ->
  (dispatchers w !! d = None /\
   destroy_SpecificDispatcher d w = Faults DanglingPointer w) \/
  (dispatchers w !! d = Some {| m_callbacks := [] |} /\
   destroy_SpecificDispatcher d w = Returns tt (without_dispatcher w d)) \/
  (exists x k cb m,
     dispatchers w !! d = Some x /\ m_callbacks x = (k, cb) :: m /\
     subscriptions w !! k = Some {| m_specific_dispatcher := Some d |} /\
     destroy_SpecificDispatcher d w = Faults InvalidIterator (after_cancel w k d x)).
Proof.
  intros Hw. destruct (dispatchers w !! d) as [[[|[k cb] m]]|] eqn:Hd.
  - right. left. split; [done|]. by apply destroy_SpecificDispatcher_empty.
  - right. right. eexists _, k, cb, m. split_and!; try done.
    + apply (ok_entry w Hw d _ k cb Hd). simpl. by rewrite Nat.eqb_refl.
    + by eapply destroy_SpecificDispatcher_nonempty.
  - left. split; [done|].
    unfold destroy_SpecificDispatcher, bind, deref_dispatcher. by rewrite Hd.
Qed.

End Preservation.

(** ** Runs *)

(** What the operations keep, a run keeps: [P] in the states calls return
    in, [Q] in the states they stop in. *)
Section Runs.
Context {Event : Type}.
Variable code : callback -> Event -> list (command Event).
Variables P Q : World Event -> Prop.
Implicit Types (w : World Event) (s d k T : nat) (cb : callback).

Hypothesis P_Q : forall w, P w -> Q w.
Hypothesis P_invoked : forall w d x k cb e,
  P w -> dispatchers w !! d = Some x ->
  StdMap.find k (m_callbacks x) = Some cb -> P (with_log w [Invoked k cb e]).
Hypothesis P_dispatcher : forall w T, P w -> ends_in P Q (dispatcher T w).
Hypothesis P_subscribe : forall w T cb, P w -> ends_in P Q (subscribe T cb w).
Hypothesis P_cancel : forall w s, P w -> ends_in P Q (cancel s w).
Hypothesis P_delete : forall w s, P w -> ends_in P Q (delete_subscription s w).
Hypothesis P_destroy : forall w, P w -> ends_in P Q (destroy_EventDispatcher w).

Lemma range_for_ends_in d (body : nat -> callback -> M Event unit) :
  (forall k cb w x, P w -> dispatchers w !! d = Some x ->
     StdMap.find k (m_callbacks x) = Some cb -> ends_in P Q (body k cb w)) ->
  forall fuel it w, P w -> ends_in P Q (range_for fuel d body it w).
Proof.
  intros Hbody. induction fuel as [|fuel IH]; intros [k|] w Hw; simpl; eauto.
  unfold bind at 1, deref_dispatcher at 1.
  destruct (dispatchers w !! d) as [x|] eqn:Hd; simpl; eauto.
  destruct (StdMap.find k (m_callbacks x)) as [cb|] eqn:Hf; simpl; eauto.
  eapply bind_ends_in; [by eapply Hbody|].
  intros [] w1 _ Hw1. unfold bind, deref_dispatcher.
  destruct (dispatchers w1 !! d) as [x1|]; simpl; eauto.
  destruct (StdMap.find k (m_callbacks x1)); simpl; eauto.
Qed.

Lemma exec_all_ends_in (publish_rec : nat -> Event -> M Event unit) :
  (forall T e w, P w -> ends_in P Q (publish_rec T e w)) ->
  forall p w, P w -> ends_in P Q (exec_all publish_rec p w).
Proof.
  intros Hrec. induction p as [|c p IH]; intros w Hw; simpl; [done|].
  eapply bind_ends_in; [|intros [] w1 _; apply IH].
  destruct c as [T cb|T e|s|s|]; simpl; eauto.
  eapply bind_ends_in; [by apply P_subscribe|]. by intros s w1 _ Hw1.
Qed.

Lemma publish_ends_in fuel T e w :
  P w -> ends_in P Q (publish code fuel T e w).
Proof.
  revert T e w. induction fuel as [|fuel IH]; intros T e w Hw; simpl; eauto.
  eapply bind_ends_in; [by apply P_dispatcher|]. intros d w1 _ Hw1.
  unfold SpecificDispatcher_publish, bind at 1, deref_dispatcher at 1.
  destruct (dispatchers w1 !! d) as [x|]; simpl; eauto.
  apply range_for_ends_in; [|done]. intros k cb w2 x2 Hw2 Hx2 Hf.
  eapply bind_ends_in with (P0 := P); [simpl; by eapply P_invoked|].
  intros [] w3 _ Hw3. by apply exec_all_ends_in.
Qed.

Lemma run_ends_in fuel p w : P w -> ends_in P Q (run code fuel p w).
Proof. apply exec_all_ends_in. intros T e. apply publish_ends_in. Qed.

End Runs.

(** The same for the states the calls return in only. *)
Section RunsReturning.
Context {Event : Type}.
Variable code : callback -> Event -> list (command Event).
Variable P : World Event -> Prop.
Implicit Types (w : World Event) (s d k T : nat) (cb : callback).

Hypothesis P_invoked : forall w d x k cb e,
  P w -> dispatchers w !! d = Some x ->
  StdMap.find k (m_callbacks x) = Some cb -> P (with_log w [Invoked k cb e]).
Hypothesis P_dispatcher : forall w T d w',
  P w -> dispatcher T w = Returns d w' -> P w'.
Hypothesis P_subscribe : forall w T cb s w',
  P w -> subscribe T cb w = Returns s w' -> P w'.
Hypothesis P_cancel : forall w s w',
  P w -> cancel s w = Returns tt w' -> P w'.
Hypothesis P_delete : forall w s w',
  P w -> delete_subscription s w = Returns tt w' -> P w'.
Hypothesis P_destroy : forall w w',
  P w -> destroy_EventDispatcher w = Returns tt w' -> P w'.

Lemma returning_ends_in {A} (o : outcome Event A) :
  (forall a w', o = Returns a w' -> P w') -> ends_in P (fun _ => True) o.
Proof. destruct o; simpl; eauto. Qed.

Lemma run_preserves fuel p w w' :
  P w -> run code fuel p w = Returns tt w' -> P w'.
Proof.
  intros Hw Hrun. apply (ends_in_returns P (fun _ => True) _ tt w') in Hrun; [done|].
  apply run_ends_in; try done.
  - intros. apply returning_ends_in. eauto.
  - intros. apply returning_ends_in. eauto.
  - intros. apply returning_ends_in. intros []. eauto.
  - intros. apply returning_ends_in. intros []. eauto.
  - intros. apply returning_ends_in. intros []. eauto.
Qed.

End RunsReturning.

(** ** Reachable states *)

Section Reachable.
Context {Event : Type}.
Variable code : callback -> Event -> list (command Event).
Implicit Types (w : World Event) (s d k T : nat) (cb : callback).

Lemma init_invariant : invariant (@init Event).
Proof.
  split; [split|split|]; simpl; try done.
  - intros l1 l2 s cb e Heq. by destruct l1.
  - intros r T d [= <-]. done.
Qed.

Lemma run_invariant fuel p w w' :
  invariant w -> run code fuel p w = Returns tt w' -> invariant w'.
Proof.
  apply (run_preserves code invariant).
  - intros. by eapply with_log_invoked_invariant.
  - intros. by eapply dispatcher_invariant.
  - intros. by eapply subscribe_invariant.
  - intros. by eapply cancel_invariant.
  - intros. by eapply delete_subscription_invariant.
  - intros. by eapply destroy_EventDispatcher_invariant.
Qed.

Lemma publish_invariant fuel T e w w' :
  invariant w -> publish code fuel T e w = Returns tt w' -> invariant w'.
Proof.
  intros Hw Hp. apply (run_invariant fuel [Publish T e] w w' Hw).
  unfold run. simpl. unfold bind. by rewrite Hp.
Qed.

Lemma reachable_run fuel p w w' :
  reachable code w -> run code fuel p w = Returns tt w' -> reachable code w'.
Proof.
  unfold run. revert w. induction p as [|c p IH]; intros w Hw; simpl.
  - by intros [= <-].
  - intros ([] & w1 & Hc & Hrest)%bind_returns. apply (IH w1); [|done].
    by eapply reachable_step.
Qed.

Lemma reachable_invariant w : reachable code w -> invariant w.
Proof.
  induction 1 as [|w fuel c w' _ IH Hc]; [apply init_invariant|].
  apply (run_invariant fuel [c] w w' IH). unfold run. simpl.
  unfold bind. by rewrite Hc.
Qed.

End Reachable.

(** ** Cancelling twice, and tearing down with live handles *)

Lemma one_subscriber_run code cb :
  run code 1 [Subscribe SomeEvent cb] init = Returns tt (one_subscriber cb).
Proof. reflexivity. Qed.

Lemma two_subscribers_run code cb cb' :
  run code 1 [Subscribe SomeEvent cb; Subscribe SomeEvent cb'] init =
    Returns tt (two_subscribers cb cb').
Proof. reflexivity. Qed.

Lemma one_subscriber_reachable code cb : reachable code (one_subscriber cb).
Proof.
  apply (reachable_run code 1 [Subscribe SomeEvent cb] init); [constructor|].
  apply one_subscriber_run.
Qed.

Lemma two_subscribers_reachable code cb cb' :
  reachable code (two_subscribers cb cb').
Proof.
  apply (reachable_run code 1 [Subscribe SomeEvent cb; Subscribe SomeEvent cb'] init);
    [constructor|].
  apply two_subscribers_run.
Qed.

(** The run of [main.cpp]: the callback sees 0, 1, 2 in publish order;
    the handle goes out of scope; the publish of 3 reaches nobody. *)
Lemma main_cpp_run :
  let o :=
    run observers 2
      [Subscribe SomeEvent 1; Publish SomeEvent 0%Z; Publish SomeEvent 1%Z;
       Publish SomeEvent 2%Z; Delete 2; Publish SomeEvent 3%Z] init in
  o = Returns tt (final o) /\
  log (final o) = [Invoked 2 1 0%Z; Invoked 2 1 1%Z; Invoked 2 1 2%Z; Cancelled 2].
Proof. vm_compute. split; reflexivity. Qed.

(** The destructor of a handle whose [cancel()] has returned makes the
    same call through [nullptr]. *)
Lemma delete_after_cancel {Event} (w w' : World Event) s :
  cancel s w = Returns tt w' ->
  delete_subscription s w' = Faults NullDereference w'.
Proof.
  intros H%cancel_cancel. unfold delete_subscription, bind. by rewrite H.
Qed.

(** C1 (code defect).  A second [cancel()] is not a no-op.  After
    [subscribe<SomeEvent>] and one [cancel()] on the returned handle, which
    returns, the handle is inactive; a second [cancel()] and likewise the
    destructor of the handle call [unsubscribe] through the null
    [m_specific_dispatcher] and fault. *)
Theorem cancel_twice_faults :
  let w1 := one_subscriber 0 in
  let w2 := after_cancel w1 2 1 {| m_callbacks := [(2, 0)] |} in
  run observers 1 [Subscribe SomeEvent 0] init = Returns tt w1 /\
  cancel 2 w1 = Returns tt w2 /\
  active 2 w2 = Returns false w2 /\
  cancel 2 w2 = Faults NullDereference w2 /\
  delete_subscription 2 w2 = Faults NullDereference w2.
Proof. repeat split; reflexivity. Qed.

(** A registry can only be torn down when none of its channels has an
    entry: with a live, active handle the destructor never returns. *)
Lemma destroy_all_returns {Event} ds (w w' : World Event) T d :
  store_ok w -> log_ok w -> destroy_all ds w = Returns tt w' ->
  In (T, d) ds -> dispatchers w !! d = Some {| m_callbacks := [] |}.
Proof.
  revert w. induction ds as [|[T0 d0] ds IH]; intros w Hst Hlg; simpl; [done|].
  intros ([] & w1 & Hd & Hrest)%bind_returns.
  apply destroy_SpecificDispatcher_returns in Hd as [Hd ->]; [|done].
  intros [[= -> ->]|Hin]; [done|].
  destruct (without_dispatcher_ok w d0) as [Hst1 Hlg1]; [done..|].
  pose proof (IH _ Hst1 Hlg1 Hrest Hin) as Hl. simpl in Hl.
  by apply lookup_delete_Some in Hl as [_ Hl].
Qed.

Lemma teardown_with_entry_never_returns {Event} (w : World Event) T d x :
  invariant w -> channel_of w T = Some d -> dispatchers w !! d = Some x ->
  m_callbacks x <> [] ->
  forall w', destroy_EventDispatcher w <> Returns tt w'.
Proof.
  intros [Hst Hlg _] Hch Hd Hne w'. unfold channel_of in Hch.
  unfold destroy_EventDispatcher, bind at 1, the_registry.
  destruct (registry w) as [r|]; simpl; [|done].
  intros ([] & w1 & Hall & _)%bind_returns.
  apply stdmap_find_In in Hch.
  pose proof (destroy_all_returns _ _ _ _ _ Hst Hlg Hall Hch) as Hd'.
  rewrite Hd in Hd'. injection Hd' as ->. done.
Qed.

(** C2 (code defect).  Tearing the registry down while one handle is alive
    does not go through: [~SpecificDispatcher] cancels the entry its loop
    stands on, [cancel()] erases that node, and the loop's increment uses
    the invalidated iterator.  In the state of the fault the handle is null,
    and a later [cancel()] on it is a call through [nullptr], not a no-op.
    With no handle the teardown returns. *)
Theorem registry_teardown_faults :
  let w1 := one_subscriber 0 in
  let w2 := after_cancel w1 2 1 {| m_callbacks := [(2, 0)] |} in
  run observers 1 [Subscribe SomeEvent 0] init = Returns tt w1 /\
  destroy_EventDispatcher w1 = Faults InvalidIterator w2 /\
  cancel 2 w2 = Faults NullDereference w2 /\
  (exists w0, destroy_EventDispatcher (@init Z) = Returns tt w0).
Proof. repeat split; [reflexivity..|]. eexists. reflexivity. Qed.

(** C3 (code defect).  The destructor of a channel with two entries
    erases from the map it is iterating: when it faults on the increment,
    the entry of the first handle is gone from the map, and the second
    handle has not been cancelled. *)
Theorem channel_destructor_erases_while_iterating :
  let w1 := two_subscribers 0 0 in
  let w2 := after_cancel w1 2 1 {| m_callbacks := [(2, 0); (3, 0)] |} in
  run observers 1 [Subscribe SomeEvent 0; Subscribe SomeEvent 0] init = Returns tt w1 /\
  destroy_SpecificDispatcher 1 w1 = Faults InvalidIterator w2 /\
  dispatchers w2 !! 1 = Some {| m_callbacks := [(3, 0)] |} /\
  subscriptions w2 !! 3 = Some {| m_specific_dispatcher := Some 1 |} /\
  active 3 w2 = Returns true w2.
Proof. repeat split; reflexivity. Qed.

(** ** The log only grows *)

Section LogExtends.
Context {Event : Type}.
Variable code : callback -> Event -> list (command Event).
Implicit Types (w : World Event) (s d k T : nat) (cb : callback).

Lemma log_extends_refl w : log_extends w w.
Proof. exists []. by rewrite app_nil_r. Qed.

Lemma log_extends_trans w1 w2 w3 :
  log_extends w1 w2 -> log_extends w2 w3 -> log_extends w1 w3.
Proof.
  intros [l1 H1] [l2 H2]. exists (l1 ++ l2). by rewrite H2, H1, app_assoc.
Qed.

Lemma cancel_log_extends w0 w s w' :
  log_extends w0 w -> cancel s w = Returns tt w' -> log_extends w0 w'.
Proof.
  intros H0 (d & x & _ & _ & ->)%cancel_returns.
  eapply log_extends_trans; [done|]. by eexists.
Qed.

Lemma dispatcher_log w T d w' :
  dispatcher T w = Returns d w' -> log w' = log w.
Proof. by intros (r & _ & [[_ ->]|(_ & _ & ->)])%dispatcher_returns. Qed.

Lemma subscribe_log w T cb s w' :
  subscribe T cb w = Returns s w' -> log w' = log w.
Proof.
  unfold subscribe. intros (d & w1 & Hd%dispatcher_log & Hs)%bind_returns.
  by apply SpecificDispatcher_subscribe_returns in Hs as (x & _ & _ & ->).
Qed.

Lemma destroy_all_log_extends ds w0 w w' :
  log_extends w0 w -> destroy_all ds w = Returns tt w' -> log_extends w0 w'.
Proof.
  revert w. induction ds as [|[T d] ds IH]; intros w H0; simpl.
  - by intros [= <-].
  - intros ([] & w1 & Hd & Hrest)%bind_returns. apply (IH w1); [|done].
    revert Hd. unfold destroy_SpecificDispatcher.
    intros (x & w2 & Hx & ([] & w3 & Hloop & [= <-])%bind_returns)%bind_returns.
    assert (Hw2 : w2 = w).
    { revert Hx. unfold deref_dispatcher. by destruct (dispatchers w !! d); intros [= _ <-]. }
    subst w2. destruct H0 as [l0 H0].
    assert (H3 : log_extends w0 w3).
    { revert Hloop. apply (range_for_preserves (log_extends w0)); [|by exists l0].
      intros k cb w4 w4' _ H4 _ _ Hc. by eapply cancel_log_extends. }
    destruct H3 as [l3 H3]. by exists l3.
Qed.

Lemma run_log_extends fuel p w w' :
  run code fuel p w = Returns tt w' -> log_extends w w'.
Proof.
  apply (run_preserves code (log_extends w)); [..|apply log_extends_refl].
  - intros w1 d x k cb e [l Hl] _ _. exists (l ++ [Invoked k cb e]). simpl.
    by rewrite Hl, app_assoc.
  - intros w1 T d w1' [l Hl] Hd%dispatcher_log. exists l. congruence.
  - intros w1 T cb s w1' [l Hl] Hs%subscribe_log. exists l. congruence.
  - intros w1 s w1'. apply cancel_log_extends.
  - intros w1 s w1' H1 (w2 & Hc & ->)%delete_subscription_returns.
    destruct (cancel_log_extends _ _ _ _ H1 Hc) as [l Hl]. by exists l.
  - intros w1 w1' H1. unfold destroy_EventDispatcher.
    intros (r & w2 & Hr & ([] & w3 & Hall & [= <-])%bind_returns)%bind_returns.
    assert (Hw2 : w2 = w1).
    { revert Hr. unfold the_registry. by destruct (registry w1); intros [= _ <-]. }
    subst w2. destruct (destroy_all_log_extends _ _ _ _ H1 Hall) as [l Hl].
    by exists l.
Qed.

Lemma invariant_sound w : invariant w -> sound w.
Proof. by intros [? ? _]. Qed.

Lemma destroy_all_ends ds w0 w :
  sound w -> log_extends w0 w ->
  ends_in (fun w' => sound w' /\ log_extends w0 w')
    (fun w' => sound w' /\ log_extends w0 w') (destroy_all ds w).
Proof.
  revert w. induction ds as [|[T d] ds IH]; intros w [Hst Hlg] Hext; simpl; [done|].
  unfold bind.
  destruct (destroy_SpecificDispatcher_cases w d Hst)
    as [[_ ->]|[[Hd ->]|(x & k & cb & m & Hd & _ & Hk & ->)]]; simpl.
  - done.
  - apply IH.
    + by apply without_dispatcher_ok.
    + done.
  - split; [split|].
    + by apply store_ok_after_cancel.
    + by eapply log_ok_after_cancel.
    + eapply log_extends_trans; [done|]. by eexists.
Qed.

(** However a run ends, the store and the log of its last state are
    consistent, and the log continues the one it started from. *)
Lemma run_ends_sound w0 fuel p w :
  invariant w -> log_extends w0 w ->
  ends_in (fun w' => invariant w' /\ log_extends w0 w')
    (fun w' => sound w' /\ log_extends w0 w') (run code fuel p w).
Proof.
  intros Hw Hext.
  apply (run_ends_in code (fun w' => invariant w' /\ log_extends w0 w')
           (fun w' => sound w' /\ log_extends w0 w')); [..|done].
  - intros w1 [? ?]. split; [by apply invariant_sound|done].
  - intros w1 d x k cb e [Hw1 [l Hl]] Hd Hf. split.
    + by eapply with_log_invoked_invariant.
    + exists (l ++ [Invoked k cb e]). simpl. by rewrite Hl, app_assoc.
  - intros w1 T [Hw1 Hl].
    destruct (dispatcher_cases w1 T) as [(d & w' & Hd)|[f Hf]]; rewrite ?Hd, ?Hf; simpl.
    + split; [by eapply dispatcher_invariant|].
      apply dispatcher_log in Hd. destruct Hl as [l Hl]. exists l. congruence.
    + split; [by apply invariant_sound|done].
  - intros w1 T cb [Hw1 Hl].
    destruct (subscribe_cases w1 T cb Hw1) as [(s & w' & Hs)|[f Hf]];
      rewrite ?Hs, ?Hf; simpl.
    + split; [by eapply subscribe_invariant|].
      apply subscribe_log in Hs. destruct Hl as [l Hl]. exists l. congruence.
    + split; [by apply invariant_sound|done].
  - intros w1 s [Hw1 Hl].
    destruct (cancel_cases w1 s) as [[w' Hc]|[f Hf]]; rewrite ?Hc, ?Hf; simpl.
    + split; [by eapply cancel_invariant|by eapply cancel_log_extends].
    + split; [by apply invariant_sound|done].
  - intros w1 s [Hw1 Hl].
    destruct (delete_subscription_cases w1 s) as [[w' Hc]|[f Hf]];
      rewrite ?Hc, ?Hf; simpl.
    + split; [by eapply delete_subscription_invariant|].
      apply delete_subscription_returns in Hc as (w2 & Hc & ->).
      destruct (cancel_log_extends _ _ _ _ Hl Hc) as [l Hl']. by exists l.
    + split; [by apply invariant_sound|done].
  - intros w1 [Hw1 Hl]. unfold destroy_EventDispatcher, bind at 1, the_registry.
    destruct (registry w1) as [r|] eqn:Hr; simpl.
    + assert (Hs1 : sound w1) by (by apply invariant_sound).
      pose proof (destroy_all_ends (m_dispatchers r) w0 w1 Hs1 Hl) as Hall.
      unfold bind. destruct (destroy_all (m_dispatchers r) w1) as [[] w2|f w2|w2];
        simpl in *; [|done..].
      destruct Hall as [[[] []] [l Hl2]]. split; [|by exists l].
      split; [split|split|]; simpl; try done.
    + split; [by apply invariant_sound|done].
Qed.

(** C5.  Once [cancel()] has returned for a subscription, called by the
    client or by the destructor of the handle, nothing the client does next
    (any program, any publish of any type, with any callbacks) calls a
    callback for that subscription: in the state the program ends in, be it
    by returning, by a fault or for want of fuel, the log has no such call
    after the point of the [cancel()]. *)
Theorem no_delivery_once_cancelled w s w1 fuel p :
  reachable code w ->
  cancel s w = Returns tt w1 \/ delete_subscription s w = Returns tt w1 ->
  exists l, log (final (run code fuel p w1)) = log w1 ++ l /\
    forall cb e, ~ In (Invoked s cb e) l.
Proof.
  intros Hw%reachable_invariant Hc.
  assert (invariant w1 /\ In (Cancelled s) (log w1)) as [Hw1 Hin].
  { destruct Hc as [Hc|(w0 & Hc & ->)%delete_subscription_returns].
    - split; [by eapply cancel_invariant|].
      apply cancel_returns in Hc as (d & x & _ & _ & ->). simpl.
      apply in_or_app. right. by left.
    - split.
      + apply without_subscription_invariant; [by eapply cancel_invariant|].
        apply cancel_returns in Hc as (d & x & _ & _ & ->). simpl.
        by rewrite lookup_insert_eq.
      + apply cancel_returns in Hc as (d & x & _ & _ & ->). simpl.
        apply in_or_app. right. by left. }
  pose proof (run_ends_sound w1 fuel p w1 Hw1 (log_extends_refl w1)) as Hend.
  apply ends_in_final in Hend as [[_ Hlg] [l Hl]].
  2:{ intros w' [? ?]. split; [by apply invariant_sound|done]. }
  exists l. split; [done|]. intros cb e Hl'.
  apply in_split in Hin as (l1 & l2 & Hlog).
  apply (ok_order _ Hlg l1 (l2 ++ l) s cb e).
  - by rewrite Hl, Hlog, <- app_assoc.
  - apply in_or_app. by right.
Qed.

End LogExtends.

Lemma no_delivery_once_cancelled_witness :
  let w1 := after_cancel (two_subscribers 0 0) 2 1 {| m_callbacks := [(2, 0); (3, 0)] |} in
  exists l, log (final (run observers 2 [Publish SomeEvent 5%Z] w1)) = log w1 ++ l /\
    forall cb e, ~ In (Invoked 2 cb e) l.
Proof.
  apply (no_delivery_once_cancelled observers (two_subscribers 0 0) 2 _ 2
           [Publish SomeEvent 5%Z]).
  - apply two_subscribers_reachable.
  - left. reflexivity.
Defined.

(** ** [active()] *)

(** A handle is active from [subscribe] on, and inactive once [cancel()]
    has returned. *)
Lemma subscribe_active {Event} (w : World Event) T cb s w' :
  subscribe T cb w = Returns s w' -> active s w' = Returns true w'.
Proof.
  unfold subscribe. intros (d & w1 & _ & Hs)%bind_returns.
  apply SpecificDispatcher_subscribe_returns in Hs as (x & _ & -> & ->).
  rewrite (active_live _ _ {| m_specific_dispatcher := Some d |}); [done|].
  simpl. by rewrite lookup_insert_eq.
Qed.

Lemma cancel_inactive {Event} (w : World Event) s w' :
  cancel s w = Returns tt w' -> active s w' = Returns false w'.
Proof.
  intros (d & x & _ & _ & ->)%cancel_returns.
  rewrite (active_live _ _ {| m_specific_dispatcher := None |}); [done|].
  simpl. by rewrite lookup_insert_eq.
Qed.

(** ** Channels of the registry *)

Section Channels.
Context {Event : Type}.
Variable code : callback -> Event -> list (command Event).
Implicit Types (w : World Event) (s d k T : nat) (cb : callback).

Lemma cancel_registry w s w' :
  cancel s w = Returns tt w' -> registry w' = registry w.
Proof. by intros (d & x & _ & _ & ->)%cancel_returns. Qed.

Lemma dispatcher_keeps_channel T d w T' d' w' :
  keeps_channel T d w -> dispatcher T' w = Returns d' w' -> keeps_channel T d w'.
Proof.
  intros Hk (r & Hr & [[_ ->]|(Hf & _ & ->)])%dispatcher_returns; [done|].
  destruct Hk as [Hk|Hk]; [congruence|]. right.
  unfold channel_of in *. rewrite Hr in Hk. simpl.
  rewrite stdmap_find_insert_ne; [done|]. intros <-. congruence.
Qed.

Lemma run_keeps_channel T d fuel p w w' :
  keeps_channel T d w -> run code fuel p w = Returns tt w' -> keeps_channel T d w'.
Proof.
  apply (run_preserves code (keeps_channel T d)).
  - intros w1 d1 x k cb e Hk _ _. exact Hk.
  - intros w1 T' d' w1'. apply dispatcher_keeps_channel.
  - intros w1 T' cb s w1' Hk. unfold subscribe.
    intros (d' & w2 & Hd & Hs)%bind_returns.
    apply (dispatcher_keeps_channel T d) in Hd; [|done].
    by apply SpecificDispatcher_subscribe_returns in Hs as (x & _ & _ & ->).
  - intros w1 s w1' Hk Hc%cancel_registry. unfold keeps_channel, channel_of in *.
    by rewrite Hc.
  - intros w1 s w1' Hk (w2 & Hc%cancel_registry & ->)%delete_subscription_returns.
    unfold keeps_channel, channel_of in *. simpl. by rewrite Hc.
  - intros w1 w1' _. unfold destroy_EventDispatcher.
    intros (r & w2 & _ & ([] & w3 & _ & [= <-])%bind_returns)%bind_returns.
    by left.
Qed.

(** C9.  The dispatcher that the first access for a type [T] creates or
    finds stays the one of [T]: after any further program, as long as the
    registry itself lives, the lookup for [T] returns that same dispatcher
    and creates nothing. *)
Theorem one_channel_per_type T d w w1 fuel p w2 :
  dispatcher T w = Returns d w1 ->
  run code fuel p w1 = Returns tt w2 ->
  is_Some (registry w2) ->
  dispatcher T w2 = Returns d w2.
Proof.
  intros Hd Hrun [r2 Hr2].
  assert (Hk : keeps_channel T d w1).
  { right. unfold channel_of.
    apply dispatcher_returns in Hd as (r & Hr & [[Hf ->]|(Hf & -> & ->)]).
    - by rewrite Hr.
    - simpl. by apply stdmap_find_insert_new. }
  destruct (run_keeps_channel T d fuel p w1 w2 Hk Hrun) as [Hn|Hch]; [congruence|].
  unfold channel_of in Hch. rewrite Hr2 in Hch.
  unfold dispatcher, bind, the_registry. by rewrite Hr2, Hch.
Qed.

Lemma publish_fresh_type fuel T e w r :
  registry w = Some r ->
  StdMap.find T (m_dispatchers r) = None ->
  publish code (S fuel) T e w = Returns tt (with_channel w T r).
Proof.
  intros Hr Hf. simpl. unfold bind at 1, dispatcher, bind at 1, the_registry.
  rewrite Hr. simpl. rewrite Hf. simpl.
  unfold SpecificDispatcher_publish, bind, deref_dispatcher. simpl.
  rewrite lookup_insert_eq. simpl. apply range_for_end.
Qed.

(** C8, as the code has it.  Publishing a type that has no channel is not
    an error and calls no callback, but it changes the registry: the channel
    is created, empty, and entered in the map of dispatchers. *)
Theorem publish_without_channel_creates_it fuel T e w r :
  registry w = Some r ->
  StdMap.find T (m_dispatchers r) = None ->
  0 < fuel ->
  publish code fuel T e w = Returns tt (with_channel w T r) /\
  log (with_channel w T r) = log w /\
  channel_of (with_channel w T r) T = Some (next_addr w) /\
  dispatchers (with_channel w T r) !! next_addr w = Some {| m_callbacks := [] |}.
Proof.
  intros Hr Hf Hfuel. destruct fuel as [|fuel]; [lia|]. repeat split.
  - by apply publish_fresh_type.
  - unfold channel_of. simpl. by apply stdmap_find_insert_new.
  - simpl. by rewrite lookup_insert_eq.
Qed.

End Channels.

Lemma one_channel_per_type_witness :
  dispatcher SomeEvent (with_log (one_subscriber 0) [Invoked 2 0 5%Z]) =
    Returns 1 (with_log (one_subscriber 0) [Invoked 2 0 5%Z]).
Proof.
  apply (one_channel_per_type observers SomeEvent 1 (one_subscriber 0)
           (one_subscriber 0) 2 [Publish SomeEvent 5%Z]).
  - reflexivity.
  - reflexivity.
  - by eexists.
Defined.

Lemma publish_without_channel_creates_it_witness :
  publish observers 1 SomeEvent 5%Z init =
    Returns tt (with_channel init SomeEvent {| m_dispatchers := [] |}) /\
  log (with_channel (@init Z) SomeEvent {| m_dispatchers := [] |}) = log (@init Z) /\
  channel_of (with_channel (@init Z) SomeEvent {| m_dispatchers := [] |}) SomeEvent =
    Some (next_addr (@init Z)) /\
  dispatchers (with_channel (@init Z) SomeEvent {| m_dispatchers := [] |})
    !! next_addr (@init Z) = Some {| m_callbacks := [] |}.
Proof.
  apply (publish_without_channel_creates_it observers 1 SomeEvent 5%Z init
           {| m_dispatchers := [] |}).
  - reflexivity.
  - reflexivity.
  - lia.
Defined.

(** C8, as the specification has it, fails: publishing [SomeEvent] on a
    fresh dispatcher returns, but never with the registry as it was. *)
Lemma publish_without_channel_changes_registry :
  ~ (exists fuel w', publish observers fuel SomeEvent 5%Z init = Returns tt w' /\
       registry w' = registry (@init Z)).
Proof.
  intros (fuel & w' & Hp & Hr). destruct fuel as [|fuel]; [done|].
  rewrite (publish_fresh_type observers fuel SomeEvent 5%Z init
             {| m_dispatchers := [] |}) in Hp by done.
  by injection Hp as <-.
Qed.

(** ** Dispatch to callbacks that only look at the event *)

Section Observers.
Context {Event : Type}.
Variable code : callback -> Event -> list (command Event).
Implicit Types (w : World Event) (s d k T : nat) (cb : callback).

Lemma with_log_nil w : with_log w [] = w.
Proof. destruct w. unfold with_log. simpl. by rewrite app_nil_r. Qed.

Lemma with_log_app w l l' : with_log (with_log w l) l' = with_log w (l ++ l').
Proof. unfold with_log. simpl. by rewrite app_assoc. Qed.

(** The loop of [publish] from the node that starts [post]: every callback
    left is called once, in key order, and nothing but the log changes. *)
Lemma range_for_observers (rec : nat -> Event -> M Event unit) e d x w :
  dispatchers w !! d = Some x ->
  StdMap.sorted (m_callbacks x) ->
  forall post pre l fuel,
    m_callbacks x = pre ++ post ->
    (forall k cb, In (k, cb) post -> code cb e = []) ->
    length post <= fuel ->
    range_for fuel d
      (fun k cb => bind (observe (Invoked k cb e)) (fun _ => exec_all rec (code cb e)))
      (StdMap.begin post) (with_log w l) =
    Returns tt (with_log w (l ++ deliveries post e)).
Proof.
  intros Hd Hso. induction post as [|[k cb] post IH]; intros pre l fuel Hm Hpure Hfuel.
  - simpl. rewrite range_for_end. by rewrite app_nil_r.
  - destruct fuel as [|fuel]; [simpl in Hfuel; lia|]. simpl.
    assert (Hf : StdMap.find k (m_callbacks x) = Some cb).
    { rewrite Hm. apply stdmap_find_middle. by rewrite <- Hm. }
    unfold bind at 1, deref_dispatcher at 1. simpl. rewrite Hd, Hf.
    unfold bind at 1. unfold bind at 1. simpl.
    rewrite (Hpure k cb) by (by left). simpl.
    unfold bind at 1, deref_dispatcher at 1. simpl. rewrite Hd, Hf.
    replace (StdMap.next k (m_callbacks x)) with (StdMap.begin post).
    2:{ rewrite Hm. symmetry. apply stdmap_next_middle. by rewrite <- Hm. }
    change (range_for fuel d
      (fun k cb => bind (observe (Invoked k cb e)) (fun _ => exec_all rec (code cb e)))
      (StdMap.begin post) (with_log (with_log w l) [Invoked k cb e]) =
      Returns tt (with_log w (l ++ Invoked k cb e :: deliveries post e))).
    rewrite with_log_app.
    rewrite (IH (pre ++ [(k, cb)]) (l ++ [Invoked k cb e]) fuel).
    + by rewrite <- app_assoc.
    + by rewrite <- app_assoc.
    + intros k' cb' Hin. apply (Hpure k' cb'). by right.
    + simpl in Hfuel. lia.
Qed.

Lemma publish_observers fuel T e w d x :
  channel_of w T = Some d ->
  dispatchers w !! d = Some x ->
  StdMap.sorted (m_callbacks x) ->
  (forall k cb, In (k, cb) (m_callbacks x) -> code cb e = []) ->
  length (m_callbacks x) < fuel ->
  publish code fuel T e w = Returns tt (with_log w (deliveries (m_callbacks x) e)).
Proof.
  intros Hch Hd Hso Hpure Hfuel. destruct fuel as [|fuel]; [lia|]. simpl.
  unfold channel_of in Hch. destruct (registry w) as [r|] eqn:Hr; [|done].
  unfold bind at 1, dispatcher, bind at 1, the_registry. rewrite Hr. simpl.
  rewrite Hch. simpl.
  unfold SpecificDispatcher_publish, bind at 1, deref_dispatcher at 1.
  rewrite Hd. simpl.
  rewrite <- (with_log_nil w) at 1.
  rewrite (range_for_observers _ e d x w Hd Hso (m_callbacks x) [] [] fuel); try done.
  lia.
Qed.

Lemma channel_entries_Some w T m :
  channel_entries w T = Some m ->
  exists d x, channel_of w T = Some d /\ dispatchers w !! d = Some x /\
    m_callbacks x = m.
Proof.
  unfold channel_entries, channel_of. destruct (registry w) as [r|]; [|done].
  destruct (StdMap.find T (m_dispatchers r)) as [d|]; [|done].
  destruct (dispatchers w !! d) as [x|] eqn:Hd; [|done].
  simpl. intros [= <-]. by exists d, x.
Qed.

(** C6.  While the subscription at [s] is the only entry of the channel
    of [T] and its callback only looks at the events, publishing a sequence
    of events calls that callback once per publish, with the event of that
    publish, in publish order, and changes nothing else. *)
Theorem single_subscription_delivery T s cb w events fuel :
  only_subscription w T s cb ->
  (forall e, In e events -> code cb e = []) ->
  1 < fuel ->
  publish_each code fuel T events w =
    Returns tt (with_log w (map (Invoked s cb) events)).
Proof.
  intros (r & d & Hr & Hf & Hd) Hpure Hfuel. revert w r Hr Hf Hd Hpure.
  induction events as [|e events IH]; intros w r Hr Hf Hd Hpure; simpl.
  - by rewrite with_log_nil.
  - rewrite (publish_observers fuel T e w d {| m_callbacks := [(s, cb)] |}).
    + simpl. rewrite (IH (with_log w [Invoked s cb e]) r); try done.
      * by rewrite with_log_app.
      * intros e' He'. apply Hpure. by right.
    + unfold channel_of. by rewrite Hr.
    + done.
    + simpl. split; [constructor|done].
    + simpl. intros k cb' [[= <- <-]|[]]. apply Hpure. by left.
    + simpl. lia.
Qed.

End Observers.

Lemma single_subscription_delivery_witness :
  publish_each observers 2 SomeEvent [0; 1; 2]%Z (one_subscriber 0) =
    Returns tt (with_log (one_subscriber 0) (map (Invoked 2 0) [0; 1; 2]%Z)).
Proof.
  apply (single_subscription_delivery observers SomeEvent 2 0 (one_subscriber 0)
           [0; 1; 2]%Z 2).
  - exists {| m_dispatchers := [(SomeEvent, 1)] |}, 1. repeat split; reflexivity.
  - reflexivity.
  - lia.
Defined.

(** ** Callbacks that change the subscriptions during a dispatch pass *)

Lemma after_meddling_run :
  run meddlers 2 [Subscribe SomeEvent 1; Subscribe SomeEvent 5; Publish SomeEvent 0%Z]
    init = Returns tt after_meddling.
Proof. reflexivity. Qed.

Lemma after_meddling_reachable : reachable meddlers after_meddling.
Proof.
  eapply reachable_run; [constructor|]. apply after_meddling_run.
Qed.

(** With addresses handed out in increasing order, a subscription made by
    a callback is served in the same pass. *)
Lemma publish_serves_new_subscription :
  exists w', publish meddlers 3 SomeEvent 0%Z (one_subscriber 2) = Returns tt w' /\
    log w' = [Invoked 2 2 0%Z; Invoked 3 9 0%Z].
Proof. eexists. split; reflexivity. Qed.

(** C4, as the specification has it, fails.  A callback that cancels its
    own subscription erases the node the loop of [publish] stands on: the
    call never returns, it faults on the increment.  A callback that
    cancels the subscription of an entry not yet visited makes the pass
    return without having called that entry, which was active when the pass
    began. *)
Lemma publish_reentrant_cancel :
  (forall fuel w', publish meddlers fuel SomeEvent 0%Z (one_subscriber 0) <> Returns tt w') /\
  publish meddlers 2 SomeEvent 0%Z (one_subscriber 0) =
    Faults InvalidIterator
      (after_cancel (with_log (one_subscriber 0) [Invoked 2 0 0%Z]) 2 1
         {| m_callbacks := [(2, 0)] |}) /\
  channel_entries (two_subscribers 1 5) SomeEvent = Some [(2, 1); (3, 5)] /\
  publish meddlers 2 SomeEvent 0%Z (two_subscribers 1 5) = Returns tt after_meddling /\
  log after_meddling = [Invoked 2 1 0%Z; Cancelled 3].
Proof.
  repeat split; try reflexivity.
  intros [|[|fuel]] w'; discriminate.
Qed.

(** C4, as the code has it.  When none of the callbacks entered for [T]
    calls back into the dispatcher on this event, [publish] returns, having
    called the callback of every entry the channel had when the call began,
    once each in key order, and having changed nothing but the log; no
    subscription whose [cancel()] had returned before, in an earlier pass
    or outside one, is among the calls. *)
Theorem publish_calls_entries_at_start {Event}
    (code : callback -> Event -> list (command Event)) fuel T e w m :
  reachable code w ->
  channel_entries w T = Some m ->
  (forall k cb, In (k, cb) m -> code cb e = []) ->
  length m < fuel ->
  publish code fuel T e w = Returns tt (with_log w (deliveries m e)) /\
  channel_entries (with_log w (deliveries m e)) T = Some m /\
  (forall s cb, In (Cancelled s) (log w) -> ~ In (Invoked s cb e) (deliveries m e)).
Proof.
  intros [Hst Hlg _]%reachable_invariant Hm Hpure Hfuel.
  destruct (channel_entries_Some w T m Hm) as (d & x & Hch & Hd & <-).
  pose proof (ok_sorted w Hst d x Hd) as Hso. repeat split; [|done|].
  - by apply (publish_observers code fuel T e w d x).
  - intros s cb Hc Hin. unfold deliveries in Hin.
    apply in_map_iff in Hin as ([k cb'] & [= -> -> ] & Hin).
    apply stdmap_In_find in Hin; [|done].
    pose proof (ok_entry w Hst _ _ _ _ Hd Hin) as Hs.
    by apply (ok_cancelled_null w Hlg _ _ Hc) in Hs.
Qed.

Lemma publish_calls_entries_at_start_witness :
  publish meddlers 2 SomeEvent 1%Z after_meddling =
    Returns tt (with_log after_meddling (deliveries [(2, 1)] 1%Z)) /\
  channel_entries (with_log after_meddling (deliveries [(2, 1)] 1%Z)) SomeEvent =
    Some [(2, 1)] /\
  (forall s cb, In (Cancelled s) (log after_meddling) ->
     ~ In (Invoked s cb 1%Z) (deliveries [(2, 1)] 1%Z)).
Proof.
  apply (publish_calls_entries_at_start meddlers 2 SomeEvent 1%Z after_meddling [(2, 1)]).
  - apply after_meddling_reachable.
  - reflexivity.
  - reflexivity.
  - simpl. lia.
Defined.

(** ** Two subscriptions of one callback *)

Section Twice.
Context {Event : Type}.
Variable code : callback -> Event -> list (command Event).
Implicit Types (w : World Event) (s d k T : nat) (cb : callback).

Lemma entries_below_next w d x :
  store_ok w -> dispatchers w !! d = Some x ->
  Forall (fun kv => fst kv < next_addr w) (m_callbacks x).
Proof.
  intros Hw Hd. apply Forall_forall. intros [k cb] Hin%list_elem_of_In.
  apply stdmap_In_find in Hin; [|by eapply ok_sorted].
  pose proof (ok_entry w Hw _ _ _ _ Hd Hin) as Hs.
  by apply (ok_subscription_fresh w Hw) in Hs.
Qed.

Lemma after_subscribe_entries w d x cb :
  store_ok w -> dispatchers w !! d = Some x ->
  StdMap.insert (next_addr w) cb (m_callbacks x) = m_callbacks x ++ [(next_addr w, cb)].
Proof. intros Hw Hd. apply stdmap_insert_last. by eapply entries_below_next. Qed.

(** The first access: the channel of [T] as it is, or a new empty one. *)
Lemma dispatcher_entries w T :
  invariant w -> is_Some (registry w) ->
  exists d w0 x,
    dispatcher T w = Returns d w0 /\ invariant w0 /\
    channel_of w0 T = Some d /\ dispatchers w0 !! d = Some x /\
    m_callbacks x = default [] (channel_entries w T).
Proof.
  intros Hw [r Hr].
  destruct (StdMap.find T (m_dispatchers r)) as [d|] eqn:Hf.
  - destruct (inv_registry w Hw r T d Hr Hf) as [x Hx].
    exists d, w, x. split_and!; try done.
    + unfold dispatcher, bind, the_registry. by rewrite Hr, Hf.
    + unfold channel_of. by rewrite Hr.
    + unfold channel_entries. by rewrite Hr, Hf, Hx.
  - exists (next_addr w), (with_channel w T r), {| m_callbacks := [] |}.
    split_and!.
    + unfold dispatcher, bind, the_registry. by rewrite Hr, Hf.
    + by apply with_channel_invariant.
    + unfold channel_of. simpl. by apply stdmap_find_insert_new.
    + simpl. by rewrite lookup_insert_eq.
    + unfold channel_entries. by rewrite Hr, Hf.
Qed.

Lemma dispatcher_existing w T d :
  channel_of w T = Some d -> dispatcher T w = Returns d w.
Proof.
  unfold channel_of, dispatcher, bind, the_registry.
  destruct (registry w) as [r|]; [|done]. simpl. by intros ->.
Qed.

(** Two subscribes of one callback, with addresses handed out in
    increasing order: the two entries come after those the channel had, and
    a pass over callbacks that only look visits them last. *)
Lemma two_subscriptions_entries T cb e fuel w m :
  reachable code w ->
  is_Some (registry w) ->
  m = default [] (channel_entries w T) ->
  (forall k c, In (k, c) m -> code c e = []) ->
  code cb e = [] ->
  length m + 2 < fuel ->
  exists s1 s2 w1 w2 w3 w4,
    subscribe T cb w = Returns s1 w1 /\
    subscribe T cb w1 = Returns s2 w2 /\
    s1 <> s2 /\
    channel_entries w2 T = Some (m ++ [(s1, cb); (s2, cb)]) /\
    active s1 w2 = Returns true w2 /\
    active s2 w2 = Returns true w2 /\
    publish code fuel T e w2 =
      Returns tt (with_log w2 (deliveries m e ++ [Invoked s1 cb e; Invoked s2 cb e])) /\
    cancel s1 w2 = Returns tt w3 /\
    active s2 w3 = Returns true w3 /\
    channel_entries w3 T = Some (m ++ [(s2, cb)]) /\
    publish code fuel T e w3 =
      Returns tt (with_log w3 (deliveries m e ++ [Invoked s2 cb e])) /\
    cancel s2 w2 = Returns tt w4 /\
    active s1 w4 = Returns true w4 /\
    channel_entries w4 T = Some (m ++ [(s1, cb)]) /\
    publish code fuel T e w4 =
      Returns tt (with_log w4 (deliveries m e ++ [Invoked s1 cb e])).
Proof.
  intros Hw%reachable_invariant Hreg -> Hpure Hcb Hfuel.
  destruct (dispatcher_entries w T Hw Hreg) as (d & w0 & x & Hd & Hw0 & Hch0 & Hx & Hm).
  rewrite <- Hm in *. clear Hm.
  set (s1 := next_addr w0). set (w1 := after_subscribe w0 d x cb).
  set (x1 := {| m_callbacks := StdMap.insert s1 cb (m_callbacks x) |}).
  assert (Hw1 : invariant w1) by by apply after_subscribe_invariant.
  assert (Hx1 : dispatchers w1 !! d = Some x1) by (simpl; by rewrite lookup_insert_eq).
  assert (Hch1 : channel_of w1 T = Some d) by done.
  assert (Hm1 : m_callbacks x1 = m_callbacks x ++ [(s1, cb)]).
  { apply (after_subscribe_entries w0 d x cb); [by destruct Hw0|done]. }
  set (s2 := next_addr w1). set (w2 := after_subscribe w1 d x1 cb).
  set (x2 := {| m_callbacks := StdMap.insert s2 cb (m_callbacks x1) |}).
  assert (Hw2 : invariant w2) by by apply after_subscribe_invariant.
  assert (Hx2 : dispatchers w2 !! d = Some x2) by (simpl; by rewrite lookup_insert_eq).
  assert (Hch2 : channel_of w2 T = Some d) by done.
  assert (Hm2 : m_callbacks x2 = m_callbacks x ++ [(s1, cb); (s2, cb)]).
  { change (m_callbacks x2) with (StdMap.insert (next_addr w1) cb (m_callbacks x1)).
    rewrite (after_subscribe_entries w1 d x1 cb); [|by destruct Hw1|done].
    rewrite Hm1. by rewrite <- app_assoc. }
  assert (Hne : s1 <> s2) by (subst s1 s2; simpl; lia).
  assert (Hs1 : subscriptions w2 !! s1 = Some {| m_specific_dispatcher := Some d |}).
  { simpl. rewrite lookup_insert_ne by (subst s1; lia). by rewrite lookup_insert_eq. }
  assert (Hs2 : subscriptions w2 !! s2 = Some {| m_specific_dispatcher := Some d |}).
  { simpl. by rewrite lookup_insert_eq. }
  set (w3 := after_cancel w2 s1 d x2).
  set (x3 := {| m_callbacks := StdMap.erase s1 (m_callbacks x2) |}).
  assert (Hw3 : invariant w3).
  { destruct Hw2. split; [by apply store_ok_after_cancel|
      by eapply log_ok_after_cancel|by apply registry_ok_after_cancel]. }
  assert (Hx3 : dispatchers w3 !! d = Some x3) by (simpl; by rewrite lookup_insert_eq).
  assert (Hm3 : m_callbacks x3 = m_callbacks x ++ [(s2, cb)]).
  { change (m_callbacks x3) with (StdMap.erase s1 (m_callbacks x2)).
    rewrite Hm2. apply stdmap_erase_middle.
    apply (fresh_not_entry w0 d x s1); [by destruct Hw0|done|done]. }
  set (w4 := after_cancel w2 s2 d x2).
  set (x4 := {| m_callbacks := StdMap.erase s2 (m_callbacks x2) |}).
  assert (Hw4 : invariant w4).
  { destruct Hw2. split; [by apply store_ok_after_cancel|
      by eapply log_ok_after_cancel|by apply registry_ok_after_cancel]. }
  assert (Hx4 : dispatchers w4 !! d = Some x4) by (simpl; by rewrite lookup_insert_eq).
  assert (Hm4 : m_callbacks x4 = m_callbacks x ++ [(s1, cb)]).
  { change (m_callbacks x4) with (StdMap.erase s2 (m_callbacks x2)).
    rewrite Hm2.
    change (m_callbacks x ++ [(s1, cb); (s2, cb)])
      with (m_callbacks x ++ [(s1, cb)] ++ [(s2, cb)]).
    rewrite app_assoc, <- Hm1.
    rewrite (stdmap_erase_middle s2 cb (m_callbacks x1) []).
    - by rewrite app_nil_r.
    - apply (fresh_not_entry w1 d x1 s2); [by destruct Hw1|done|done]. }
  assert (Hentries : forall w' x', channel_of w' T = Some d ->
            dispatchers w' !! d = Some x' ->
            channel_entries w' T = Some (m_callbacks x')).
  { intros w' x' Hc Hx'. unfold channel_of in Hc. unfold channel_entries.
    destruct (registry w'); [|done]. by rewrite Hc, Hx'. }
  exists s1, s2, w1, w2, w3, w4. split_and!.
  - unfold subscribe, bind. rewrite Hd.
    by rewrite (SpecificDispatcher_subscribe_alive w0 d cb x).
  - unfold subscribe, bind. rewrite (dispatcher_existing w1 T d Hch1).
    by rewrite (SpecificDispatcher_subscribe_alive w1 d cb x1).
  - done.
  - rewrite <- Hm2. by apply Hentries.
  - by rewrite (active_live w2 s1 _ Hs1).
  - by rewrite (active_live w2 s2 _ Hs2).
  - rewrite (publish_observers code fuel T e w2 d x2); try done.
    + rewrite Hm2. unfold deliveries. by rewrite map_app.
    + by eapply ok_sorted, Hx2; destruct Hw2.
    + rewrite Hm2. intros k c [Hin|[[= <- <-]|[[= <- <-]|[]]]]%in_app_or; eauto.
    + rewrite Hm2, length_app. simpl. lia.
  - by apply cancel_active.
  - rewrite (active_live w3 s2 {| m_specific_dispatcher := Some d |}); [done|].
    simpl. by rewrite lookup_insert_ne, lookup_insert_eq.
  - rewrite <- Hm3. by apply Hentries.
  - rewrite (publish_observers code fuel T e w3 d x3); try done.
    + rewrite Hm3. unfold deliveries. by rewrite map_app.
    + by eapply ok_sorted, Hx3; destruct Hw3.
    + rewrite Hm3. intros k c [Hin|[[= <- <-]|[]]]%in_app_or; eauto.
    + rewrite Hm3, length_app. simpl. lia.
  - by apply cancel_active.
  - rewrite (active_live w4 s1 {| m_specific_dispatcher := Some d |}); [done|].
    simpl. rewrite lookup_insert_ne by done.
    rewrite lookup_insert_ne by (subst s1 s2; simpl; lia).
    by rewrite lookup_insert_eq.
  - rewrite <- Hm4. by apply Hentries.
  - rewrite (publish_observers code fuel T e w4 d x4); try done.
    + rewrite Hm4. unfold deliveries. by rewrite map_app.
    + by eapply ok_sorted, Hx4; destruct Hw4.
    + rewrite Hm4. intros k c [Hin|[[= <- <-]|[]]]%in_app_or; eauto.
    + rewrite Hm4, length_app. simpl. lia.
Qed.

End Twice.

(** No state of a fault-free run has logged a call for a subscription
    after the return of its [cancel()], wherever the [cancel()] was made. *)
Lemma reachable_no_delivery_after_cancel {Event}
    (code : callback -> Event -> list (command Event)) w :
  reachable code w -> no_delivery_after_cancel (log w).
Proof. intros [_ Hlg _]%reachable_invariant. by destruct Hlg. Qed.

(** ** The registry's map of dispatchers in reachable states *)

Section RegistryWf.
Context {Event : Type}.
Variable code : callback -> Event -> list (command Event).
Implicit Types (w : World Event) (s d k T : nat) (cb : callback).

Lemma init_registry_wf : registry_wf (@init Event).
Proof.
  split; simpl.
  - by intros r [= <-].
  - by intros r T T' d [= <-].
  - intros r d x _. by rewrite lookup_empty.
  - done.
Qed.

Lemma with_channel_registry_wf w T r :
  invariant w -> registry_wf w -> registry w = Some r ->
  StdMap.find T (m_dispatchers r) = None ->
  registry_wf (with_channel w T r).
Proof.
  intros Hw [Hso Hin How Hgo] Hr Hf.
  assert (Hnew : forall T', StdMap.find T' (m_dispatchers r) <> Some (next_addr w)).
  { intros T' HT'. destruct (inv_registry w Hw r T' _ Hr HT') as [x Hx].
    apply (ok_dispatcher_fresh w (inv_store w Hw)) in Hx. lia. }
  split; simpl.
  - intros r' [= <-]. simpl. apply stdmap_sorted_insert. eauto.
  - intros r' T1 T2 d [= <-]. simpl.
    destruct (decide (T = T1)) as [<-|H1], (decide (T = T2)) as [<-|H2]; try done.
    + rewrite stdmap_find_insert_new by done.
      rewrite stdmap_find_insert_ne by done. intros [= <-] H. by apply Hnew in H.
    + rewrite stdmap_find_insert_ne by done.
      rewrite stdmap_find_insert_new by done. intros H [= <-]. by apply Hnew in H.
    + rewrite !stdmap_find_insert_ne by done. eauto.
  - intros r' d x [= <-]. simpl. rewrite lookup_insert. case_decide as Hd; subst.
    + intros _. exists T. by apply stdmap_find_insert_new.
    + intros Hx. destruct (How r d x Hr Hx) as [T' HT']. exists T'.
      rewrite stdmap_find_insert_ne; [done|]. intros <-. congruence.
  - done.
Qed.

Lemma dispatcher_registry_wf w T d w' :
  invariant w -> registry_wf w -> dispatcher T w = Returns d w' -> registry_wf w'.
Proof.
  intros Hw Hwf (r & Hr & [[_ ->]|(Hf & _ & ->)])%dispatcher_returns; [done|].
  by apply with_channel_registry_wf.
Qed.

(** Writing to a live dispatcher changes nothing for the registry. *)
Lemma registry_wf_store w w' d x :
  registry_wf w -> is_Some (dispatchers w !! d) ->
  registry w' = registry w -> dispatchers w' = <[d := x]> (dispatchers w) ->
  registry_wf w'.
Proof.
  intros [Hso Hin How Hgo] [x0 Hd] Hr Hds. split; rewrite ?Hr; try done.
  - intros r d' y Hreg. rewrite Hds, lookup_insert. case_decide; subst; eauto.
  - intros Hn. apply Hgo in Hn. by rewrite Hn in Hd.
Qed.

Lemma after_cancel_registry_wf w s d x :
  registry_wf w -> dispatchers w !! d = Some x ->
  registry_wf (after_cancel w s d x).
Proof. intros Hwf Hd. by eapply registry_wf_store. Qed.

Lemma after_subscribe_registry_wf w d x cb :
  registry_wf w -> dispatchers w !! d = Some x ->
  registry_wf (after_subscribe w d x cb).
Proof. intros Hwf Hd. by eapply registry_wf_store. Qed.

(** What a teardown that returns leaves of the dispatchers. *)
Lemma destroy_all_dispatchers ds w w' d x :
  store_ok w -> log_ok w -> destroy_all ds w = Returns tt w' ->
  dispatchers w' !! d = Some x ->
  dispatchers w !! d = Some x /\ forall T, ~ In (T, d) ds.
Proof.
  revert w. induction ds as [|[T0 d0] ds IH]; intros w Hst Hlg; simpl.
  - intros [= <-]. eauto.
  - intros ([] & w1 & Hd & Hrest)%bind_returns Hx.
    apply destroy_SpecificDispatcher_returns in Hd as [Hd ->]; [|done].
    destruct (without_dispatcher_ok w d0) as [Hst1 Hlg1]; [done..|].
    destruct (IH _ Hst1 Hlg1 Hrest Hx) as [Hx1 Hni]. simpl in Hx1.
    apply lookup_delete_Some in Hx1 as [Hne Hx1]. split; [done|].
    intros T [[= _ ->]|Hin]; [done|]. by eapply Hni.
Qed.

Lemma destroy_EventDispatcher_registry_wf w w' :
  invariant w -> registry_wf w ->
  destroy_EventDispatcher w = Returns tt w' -> registry_wf w'.
Proof.
  intros [Hst Hlg _] [Hso Hin How Hgo].
  unfold destroy_EventDispatcher, bind at 1, the_registry.
  destruct (registry w) as [r|] eqn:Hr; simpl; [|done].
  intros ([] & w1 & Hall & [= <-])%bind_returns. split; simpl; try done.
  intros _. apply map_empty. intros d.
  destruct (dispatchers w1 !! d) as [x|] eqn:Hx; [|done].
  destruct (destroy_all_dispatchers _ _ _ _ _ Hst Hlg Hall Hx) as [Hx0 Hni].
  destruct (How r d x eq_refl Hx0) as [T HT]. apply stdmap_find_In in HT.
  by apply Hni in HT.
Qed.

Lemma run_registry_wf fuel p w w' :
  invariant w /\ registry_wf w -> run code fuel p w = Returns tt w' ->
  invariant w' /\ registry_wf w'.
Proof.
  apply (run_preserves code (fun w => invariant w /\ registry_wf w)).
  - intros w1 d x k cb e [Hw1 Hwf] Hd Hf. split.
    + by eapply with_log_invoked_invariant.
    + by destruct Hwf.
  - intros w1 T d w1' [Hw1 Hwf] Hd. split.
    + by eapply dispatcher_invariant.
    + by eapply dispatcher_registry_wf.
  - intros w1 T cb s w1' [Hw1 Hwf] Hs. split; [by eapply subscribe_invariant|].
    revert Hs. unfold subscribe. intros (d & w2 & Hd & Hs)%bind_returns.
    apply SpecificDispatcher_subscribe_returns in Hs as (x & Hx & _ & ->).
    apply after_subscribe_registry_wf; [|done]. by eapply dispatcher_registry_wf.
  - intros w1 s w1' [Hw1 Hwf] Hc. split; [by eapply cancel_invariant|].
    apply cancel_returns in Hc as (d & x & _ & Hd & ->).
    by apply after_cancel_registry_wf.
  - intros w1 s w1' [Hw1 Hwf] Hc. split; [by eapply delete_subscription_invariant|].
    apply delete_subscription_returns in Hc as (w2 & Hc & ->).
    apply cancel_returns in Hc as (d & x & _ & Hd & ->).
    pose proof (after_cancel_registry_wf w1 s d x Hwf Hd) as []. by split.
  - intros w1 w1' [Hw1 Hwf] Hd. split.
    + by eapply destroy_EventDispatcher_invariant.
    + by eapply destroy_EventDispatcher_registry_wf.
Qed.

Lemma reachable_registry_wf w : reachable code w -> registry_wf w.
Proof.
  intros Hw. cut (invariant w /\ registry_wf w); [by intros []|].
  induction Hw as [|w fuel c w' _ IH Hc].
  - split; [apply init_invariant|apply init_registry_wf].
  - apply (run_registry_wf fuel [c] w w' IH). unfold run. simpl.
    unfold bind. by rewrite Hc.
Qed.

End RegistryWf.

(** ** Handles and the entries of the channels *)

Lemma stdmap_erase_absent {V} k (m : list (nat * V)) :
  StdMap.find k m = None -> StdMap.erase k m = m.
Proof.
  induction m as [|[k0 v0] m IH]; simpl; [done|].
  destruct (Nat.eqb_spec k k0); [done|]. intros Hf. by rewrite IH.
Qed.

Section Handles.
Context {Event : Type}.
Variable code : callback -> Event -> list (command Event).
Implicit Types (w : World Event) (s d k T : nat) (cb : callback).

Lemma channel_entries_intro w T d x :
  channel_of w T = Some d -> dispatchers w !! d = Some x ->
  channel_entries w T = Some (m_callbacks x).
Proof.
  unfold channel_of, channel_entries. destruct (registry w); [|done].
  intros -> ->. done.
Qed.

(** The map of callbacks is keyed by exactly the active handles: a live
    handle answers [active()] with true if and only if the channel of some
    type has an entry under its address. *)
Theorem active_iff_entry w s :
  reachable code w ->
  active s w = Returns true w <->
  exists T m, channel_entries w T = Some m /\ is_Some (StdMap.find s m).
Proof.
  intros Hr. pose proof (reachable_invariant code w Hr) as [Hst Hlg Hrg].
  pose proof (reachable_registry_wf code w Hr) as [Hso Hin How Hgo]. split.
  - intros (_ & [[d|]] & Hs & Hb)%active_returns; [|done].
    destruct (ok_bound w Hst _ _ Hs) as (x & Hx & Hf).
    destruct (registry w) as [r|] eqn:Hreg.
    + destruct (How r d x eq_refl Hx) as [T HT]. exists T, (m_callbacks x).
      split; [|done]. apply (channel_entries_intro w T d x); [|done].
      unfold channel_of. by rewrite Hreg.
    + rewrite Hgo in Hx by done. by rewrite lookup_empty in Hx.
  - intros (T & m & (d & x & _ & Hx & <-)%channel_entries_Some & [cb Hf]).
    by rewrite (active_live w s _ (ok_entry w Hst _ _ _ _ Hx Hf)).
Qed.

Lemma entry_channel_unique w s T T' m m' :
  invariant w -> registry_wf w ->
  channel_entries w T = Some m -> is_Some (StdMap.find s m) ->
  channel_entries w T' = Some m' -> is_Some (StdMap.find s m') ->
  T = T'.
Proof.
  intros [Hst _ _] [_ Hin _ _].
  intros (d & x & Hc & Hx & <-)%channel_entries_Some [cb Hf]
         (d' & x' & Hc' & Hx' & <-)%channel_entries_Some [cb' Hf'].
  pose proof (ok_entry w Hst _ _ _ _ Hx Hf) as Hs.
  pose proof (ok_entry w Hst _ _ _ _ Hx' Hf') as Hs'.
  assert (d = d') as <- by congruence.
  unfold channel_of in *. destruct (registry w) as [r|] eqn:Hreg; [|done].
  by eapply Hin.
Qed.

(** A handle has its entry in the channel of one type only: the channel
    of any other type has none under its address. *)
Theorem entry_in_one_channel w s T T' m m' :
  reachable code w ->
  T <> T' ->
  channel_entries w T = Some m -> is_Some (StdMap.find s m) ->
  channel_entries w T' = Some m' ->
  StdMap.find s m' = None.
Proof.
  intros Hr Hne Hm Hs Hm'.
  destruct (StdMap.find s m') as [cb|] eqn:Hf; [|done]. exfalso. apply Hne.
  apply (entry_channel_unique w s T T' m m'); eauto.
  - by eapply reachable_invariant.
  - by eapply reachable_registry_wf.
Qed.

Lemma after_cancel_channel_entries w s d x :
  store_ok w ->
  subscriptions w !! s = Some {| m_specific_dispatcher := Some d |} ->
  dispatchers w !! d = Some x ->
  forall T, channel_entries (after_cancel w s d x) T =
    StdMap.erase s <$> channel_entries w T.
Proof.
  intros Hst Hs Hx T. unfold channel_entries. simpl.
  destruct (registry w) as [r|]; [|done].
  destruct (StdMap.find T (m_dispatchers r)) as [d'|]; [|done].
  rewrite lookup_insert. case_decide as Hd; subst.
  - by rewrite Hx.
  - destruct (dispatchers w !! d') as [x'|] eqn:Hx'; [|done]. simpl.
    rewrite stdmap_erase_absent; [done|].
    destruct (StdMap.find s (m_callbacks x')) as [cb|] eqn:Hf; [|done].
    pose proof (ok_entry w Hst _ _ _ _ Hx' Hf). congruence.
Qed.

(** [cancel()] returns exactly for a live handle that is active; for any
    other it faults. *)
Theorem cancel_returns_iff_active w s :
  reachable code w ->
  (exists w', cancel s w = Returns tt w') <-> active s w = Returns true w.
Proof.
  intros [Hst _ _]%reachable_invariant. split.
  - intros [w' (d & x & Hs & _ & _)%cancel_returns]. by rewrite (active_live w s _ Hs).
  - intros (_ & [[d|]] & Hs & Hb)%active_returns; [|done].
    destruct (ok_bound w Hst _ _ Hs) as (x & Hx & _).
    eexists. by apply cancel_active.
Qed.

(** What a [cancel()] that returns changes: the entry of the handle is
    erased from the channel that had it, the entries of every other channel,
    every other handle and the registry stay as they were, and the handle
    itself becomes inactive. *)
Theorem cancel_effect w s w' :
  reachable code w ->
  cancel s w = Returns tt w' ->
  (forall T, channel_entries w' T = StdMap.erase s <$> channel_entries w T) /\
  (forall T m, channel_entries w' T = Some m -> StdMap.find s m = None) /\
  (forall s', s' <> s -> subscriptions w' !! s' = subscriptions w !! s') /\
  active s w' = Returns false w' /\
  registry w' = registry w /\
  log w' = log w ++ [Cancelled s].
Proof.
  intros [Hst _ _]%reachable_invariant Hc.
  pose proof (cancel_inactive w s w' Hc) as Hina.
  apply cancel_returns in Hc as (d & x & Hs & Hx & ->).
  pose proof (after_cancel_channel_entries w s d x Hst Hs Hx) as Hent.
  split_and!; try done.
  - intros T m. rewrite Hent.
    destruct (channel_entries w T) as [m0|] eqn:Hm0; [|done]. simpl. intros [= <-].
    apply channel_entries_Some in Hm0 as (d' & x' & _ & Hx' & <-).
    apply stdmap_find_erase_eq. by eapply ok_sorted.
  - intros s' Hne. simpl. by rewrite lookup_insert_ne.
Qed.

(** [unsubscribe] on a live dispatcher always returns; for an address
    that has no entry it changes nothing, and a second [unsubscribe] of the
    same address changes nothing more. *)
Theorem unsubscribe_absent_and_twice w d x s :
  reachable code w ->
  dispatchers w !! d = Some x ->
  exists w1,
    unsubscribe d s w = Returns tt w1 /\
    unsubscribe d s w1 = Returns tt w1 /\
    (StdMap.find s (m_callbacks x) = None -> w1 = w).
Proof.
  intros [Hst _ _]%reachable_invariant Hx.
  assert (Hsame : forall w0 x0, dispatchers w0 !! d = Some x0 ->
            StdMap.find s (m_callbacks x0) = None -> unsubscribe d s w0 = Returns tt w0).
  { intros w0 x0 Hx0 Hf. unfold unsubscribe, bind, deref_dispatcher. rewrite Hx0. simpl.
    unfold store_dispatcher. rewrite stdmap_erase_absent by done.
    destruct x0 as [m0]. simpl. rewrite insert_id by done. by destruct w0. }
  assert (Hrun : unsubscribe d s w =
            Returns tt (store_dispatcher_state w d
              {| m_callbacks := StdMap.erase s (m_callbacks x) |})).
  { unfold unsubscribe, bind, deref_dispatcher. by rewrite Hx. }
  eexists. split; [exact Hrun|split].
  - eapply Hsame; [simpl; by rewrite lookup_insert_eq|]. simpl.
    apply stdmap_find_erase_eq. by eapply ok_sorted.
  - intros Hf. pose proof (Hsame w x Hx Hf) as Hw. rewrite Hrun in Hw.
    by injection Hw.
Qed.

(** What the first access to the channel of [T] leaves as it was. *)
Lemma dispatcher_shape w T d w0 :
  invariant w -> registry_wf w -> dispatcher T w = Returns d w0 ->
  invariant w0 /\ registry_wf w0 /\ channel_of w0 T = Some d /\
  (exists x, dispatchers w0 !! d = Some x /\
     m_callbacks x = default [] (channel_entries w T)) /\
  subscriptions w0 = subscriptions w /\ log w0 = log w /\
  next_addr w <= next_addr w0 /\
  (forall T', T' <> T -> channel_entries w0 T' = channel_entries w T').
Proof.
  intros Hw Hwf Hd.
  pose proof (dispatcher_invariant w T d w0 Hw Hd) as Hw0.
  pose proof (dispatcher_registry_wf w T d w0 Hw Hwf Hd) as Hwf0.
  apply dispatcher_returns in Hd as (r & Hr & [[Hf ->]|(Hf & -> & ->)]).
  - destruct (inv_registry w Hw r T d Hr Hf) as [x Hx]. split_and!; try done.
    + unfold channel_of. by rewrite Hr.
    + exists x. split; [done|]. unfold channel_entries. by rewrite Hr, Hf, Hx.
  - split_and!; try done.
    + unfold channel_of. simpl. by apply stdmap_find_insert_new.
    + eexists. split; [simpl; by rewrite lookup_insert_eq|].
      unfold channel_entries. by rewrite Hr, Hf.
    + simpl. lia.
    + intros T' Hne. unfold channel_entries. simpl. rewrite Hr.
      rewrite stdmap_find_insert_ne by done.
      destruct (StdMap.find T' (m_dispatchers r)) as [d'|] eqn:Hf'; [|done].
      rewrite lookup_insert_ne; [done|]. intros <-.
      destruct (inv_registry w Hw r T' _ Hr Hf') as [x Hx].
      apply (ok_dispatcher_fresh w (inv_store w Hw)) in Hx. lia.
Qed.

Lemma subscribe_shape w T cb s w1 :
  invariant w -> registry_wf w -> subscribe T cb w = Returns s w1 ->
  exists d w0 x,
    dispatcher T w = Returns d w0 /\ dispatchers w0 !! d = Some x /\
    s = next_addr w0 /\ w1 = after_subscribe w0 d x cb.
Proof.
  intros Hw Hwf. unfold subscribe. intros (d & w0 & Hd & Hs)%bind_returns.
  apply SpecificDispatcher_subscribe_returns in Hs as (x & Hx & -> & ->).
  by exists d, w0, x.
Qed.

Lemma after_subscribe_channel_entries w d x cb T :
  invariant w -> registry_wf w -> channel_of w T = Some d ->
  dispatchers w !! d = Some x ->
  channel_entries (after_subscribe w d x cb) T =
    Some (m_callbacks x ++ [(next_addr w, cb)]) /\
  forall T', T' <> T ->
    channel_entries (after_subscribe w d x cb) T' = channel_entries w T'.
Proof.
  intros Hw [_ Hin _ _] Hch Hx. unfold channel_of in Hch.
  unfold channel_entries. simpl. destruct (registry w) as [r|] eqn:Hr; [|done].
  split.
  - rewrite Hch, lookup_insert_eq. simpl.
    by rewrite (after_subscribe_entries w d x cb (inv_store w Hw) Hx).
  - intros T' Hne. destruct (StdMap.find T' (m_dispatchers r)) as [d'|] eqn:Hf'; [|done].
    rewrite lookup_insert_ne; [done|]. intros <-. apply Hne. by eapply Hin.
Qed.

(** [subscribe] on a live registry always returns.  The handle is at an
    address no live handle has, and is active; the channel of [T] has gained
    the entry of the handle, with the callback given, and has kept every
    entry it had (none when the channel did not exist); the channels of the
    other types, the other handles and the log are as they were. *)
Theorem subscribe_effect w T cb :
  reachable code w ->
  is_Some (registry w) ->
  exists s w' m',
    subscribe T cb w = Returns s w' /\
    subscriptions w !! s = None /\
    active s w' = Returns true w' /\
    channel_entries w' T = Some m' /\
    StdMap.find s m' = Some cb /\
    (forall k, k <> s ->
       StdMap.find k m' = StdMap.find k (default [] (channel_entries w T))) /\
    length m' = S (length (default [] (channel_entries w T))) /\
    (forall T', T' <> T -> channel_entries w' T' = channel_entries w T') /\
    (forall s', s' <> s -> subscriptions w' !! s' = subscriptions w !! s') /\
    log w' = log w.
Proof.
  intros Hr Hreg. pose proof (reachable_invariant code w Hr) as Hw.
  pose proof (reachable_registry_wf code w Hr) as Hwf.
  destruct (subscribe_cases w T cb Hw) as [(s & w' & Hs)|[f Hf]].
  2:{ revert Hf. unfold subscribe, bind.
      destruct (dispatcher_entries w T Hw Hreg) as (d & w0 & x & -> & _ & _ & Hx & _).
      by rewrite (SpecificDispatcher_subscribe_alive w0 d cb x Hx). }
  pose proof (subscribe_active w T cb s w' Hs) as Hact.
  destruct (subscribe_shape w T cb s w' Hw Hwf Hs) as (d & w0 & x & Hd & Hx & -> & ->).
  destruct (dispatcher_shape w T d w0 Hw Hwf Hd)
    as (Hw0 & Hwf0 & Hch0 & (x' & Hx' & Hm) & Hsub & Hlog & Hnext & Hframe).
  assert (x' = x) as -> by congruence.
  destruct (after_subscribe_channel_entries w0 d x cb T Hw0 Hwf0 Hch0 Hx) as [He Ho].
  assert (Hnew : StdMap.find (next_addr w0) (m_callbacks x) = None).
  { by apply (fresh_not_entry w0 d x (next_addr w0) (inv_store w0 Hw0)). }
  exists (next_addr w0), (after_subscribe w0 d x cb),
    (StdMap.insert (next_addr w0) cb (m_callbacks x)).
  split_and!; try done.
  - destruct (subscriptions w !! next_addr w0) as [y|] eqn:Hy; [|done].
    apply (ok_subscription_fresh w (inv_store w Hw)) in Hy. lia.
  - rewrite He. f_equal. symmetry.
    by apply (after_subscribe_entries w0 d x cb (inv_store w0 Hw0)).
  - by apply stdmap_find_insert_new.
  - intros k Hk. rewrite <- Hm. by apply stdmap_find_insert_ne.
  - rewrite <- Hm, (after_subscribe_entries w0 d x cb (inv_store w0 Hw0) Hx).
    rewrite length_app. simpl. lia.
  - intros T' Hne. rewrite Ho by done. by apply Hframe.
  - intros s' Hne. simpl. rewrite lookup_insert_ne by done. by rewrite Hsub.
Qed.

(** The destructor of a handle returns exactly for a live handle that is
    active. *)
Theorem delete_subscription_returns_iff_active w s :
  reachable code w ->
  (exists w', delete_subscription s w = Returns tt w') <-> active s w = Returns true w.
Proof.
  intros [Hst _ _]%reachable_invariant. split.
  - intros [w' (w1 & (d & x & Hs & _ & _)%cancel_returns & _)%delete_subscription_returns].
    by rewrite (active_live w s _ Hs).
  - intros (_ & [[d|]] & Hs & Hb)%active_returns; [|done].
    destruct (ok_bound w Hst _ _ Hs) as (x & Hx & _).
    eexists. unfold delete_subscription, bind.
    rewrite (cancel_active w s d x Hs Hx). reflexivity.
Qed.

(** What the destructor of a handle leaves: the storage of the handle is
    released, so any later call on it uses a dangling pointer; its entry is
    erased; the other handles and the entries of the other channels are as
    they were. *)
Theorem delete_subscription_effect w s w' :
  reachable code w ->
  delete_subscription s w = Returns tt w' ->
  subscriptions w' !! s = None /\
  (forall s', s' <> s -> subscriptions w' !! s' = subscriptions w !! s') /\
  (forall T, channel_entries w' T = StdMap.erase s <$> channel_entries w T) /\
  log w' = log w ++ [Cancelled s] /\
  active s w' = Faults DanglingPointer w' /\
  cancel s w' = Faults DanglingPointer w'.
Proof.
  intros [Hst _ _]%reachable_invariant (w1 & Hc & ->)%delete_subscription_returns.
  apply cancel_returns in Hc as (d & x & Hs & Hx & ->).
  pose proof (after_cancel_channel_entries w s d x Hst Hs Hx) as Hent.
  assert (Hgone : subscriptions (without_subscription (after_cancel w s d x) s) !! s = None).
  { simpl. by rewrite lookup_delete_eq. }
  split_and!; try done.
  - intros s' Hne. simpl. rewrite lookup_delete_ne by done. by rewrite lookup_insert_ne.
  - unfold active, bind, deref_subscription. by rewrite Hgone.
  - unfold cancel, bind, deref_subscription. by rewrite Hgone.
Qed.

(** Subscribing and then letting the handle go leaves no trace in the
    store: the handles are those there were, the channel of [T] has the
    entries it had (it exists now, if it did not), the other channels are
    untouched; the log has the [cancel()] of the destructor. *)
Theorem subscribe_delete_round_trip w T cb s w1 :
  reachable code w ->
  subscribe T cb w = Returns s w1 ->
  exists w2,
    delete_subscription s w1 = Returns tt w2 /\
    subscriptions w2 = subscriptions w /\
    channel_entries w2 T = Some (default [] (channel_entries w T)) /\
    (forall T', T' <> T -> channel_entries w2 T' = channel_entries w T') /\
    log w2 = log w ++ [Cancelled s].
Proof.
  intros Hr Hs. pose proof (reachable_invariant code w Hr) as Hw.
  pose proof (reachable_registry_wf code w Hr) as Hwf.
  pose proof (subscribe_invariant w T cb s w1 Hw Hs) as Hw1.
  destruct (subscribe_shape w T cb s w1 Hw Hwf Hs) as (d & w0 & x & Hd & Hx & -> & ->).
  destruct (dispatcher_shape w T d w0 Hw Hwf Hd)
    as (Hw0 & Hwf0 & Hch0 & (x' & Hx' & Hm) & Hsub & Hlog & Hnext & Hframe).
  assert (x' = x) as -> by congruence.
  destruct (after_subscribe_channel_entries w0 d x cb T Hw0 Hwf0 Hch0 Hx) as [He Ho].
  set (w1 := after_subscribe w0 d x cb) in *. set (s := next_addr w0) in *.
  set (x1 := {| m_callbacks := StdMap.insert s cb (m_callbacks x) |}).
  assert (Hs1 : subscriptions w1 !! s = Some {| m_specific_dispatcher := Some d |}).
  { simpl. by rewrite lookup_insert_eq. }
  assert (Hx1 : dispatchers w1 !! d = Some x1) by (simpl; by rewrite lookup_insert_eq).
  pose proof (after_cancel_channel_entries w1 s d x1 (inv_store w1 Hw1) Hs1 Hx1) as Hent.
  assert (Hfresh : subscriptions w0 !! s = None).
  { destruct (subscriptions w0 !! s) as [y|] eqn:Hy; [|done].
    apply (ok_subscription_fresh w0 (inv_store w0 Hw0)) in Hy. subst s. lia. }
  exists (without_subscription (after_cancel w1 s d x1) s). split_and!.
  - unfold delete_subscription, bind. by rewrite (cancel_active w1 s d x1 Hs1 Hx1).
  - simpl. rewrite delete_insert_eq, delete_insert_eq, <- Hsub.
    by apply delete_id.
  - change (channel_entries (after_cancel w1 s d x1) T =
            Some (default [] (channel_entries w T))).
    rewrite Hent, He. simpl. rewrite <- Hm. f_equal.
    rewrite (stdmap_erase_middle s cb (m_callbacks x) []).
    + by rewrite app_nil_r.
    + by apply (fresh_not_entry w0 d x s (inv_store w0 Hw0)).
  - intros T' Hne.
    change (channel_entries (after_cancel w1 s d x1) T' = channel_entries w T').
    rewrite Hent, Ho by done. rewrite Hframe by done.
    destruct (channel_entries w T') as [m'|] eqn:Hm'; [|done]. simpl. f_equal.
    apply stdmap_erase_absent.
    apply channel_entries_Some in Hm' as (d' & x' & _ & Hx'' & <-).
    apply (fresh_not_entry w d' x' s (inv_store w Hw)); [done|]. subst s. lia.
  - simpl. by rewrite Hlog.
Qed.

(** Publishing a type that has no subscriber, its channel being empty or
    not there yet, returns without calling anything or touching a handle;
    publishing it once more changes nothing at all. *)
Theorem publish_no_subscribers w T e e' fuel :
  reachable code w ->
  is_Some (registry w) ->
  default [] (channel_entries w T) = [] ->
  0 < fuel ->
  exists w1,
    publish code fuel T e w = Returns tt w1 /\
    log w1 = log w /\
    subscriptions w1 = subscriptions w /\
    channel_entries w1 T = Some [] /\
    publish code fuel T e' w1 = Returns tt w1.
Proof.
  intros Hr Hreg Hempty Hfuel. pose proof (reachable_invariant code w Hr) as Hw.
  pose proof (reachable_registry_wf code w Hr) as Hwf.
  destruct (dispatcher_entries w T Hw Hreg) as (d & w0 & x & Hd & _ & _ & _ & _).
  destruct (dispatcher_shape w T d w0 Hw Hwf Hd)
    as (Hw0 & Hwf0 & Hch0 & (x' & Hx' & Hm) & Hsub & Hlog & Hnext & Hframe).
  rewrite Hempty in Hm.
  assert (Hpub : forall ev, publish code fuel T ev w0 = Returns tt w0).
  { intros ev. rewrite (publish_observers code fuel T ev w0 d x' Hch0 Hx').
    - rewrite Hm. simpl. by rewrite with_log_nil.
    - by rewrite Hm.
    - rewrite Hm. by intros k cb [].
    - rewrite Hm. simpl. lia. }
  exists w0. split_and!; try done.
  - destruct fuel as [|fuel]; [lia|]. specialize (Hpub e).
    simpl in *. unfold bind at 1 in Hpub. unfold bind at 1.
    rewrite (dispatcher_existing w0 T d Hch0) in Hpub. by rewrite Hd.
  - rewrite (channel_entries_intro w0 T d x' Hch0 Hx'). by rewrite Hm.
Qed.

End Handles.

(** ** Who is called by a publish *)

Section Deliveries.
Context {Event : Type}.
Variable code : callback -> Event -> list (command Event).
Implicit Types (w : World Event) (s d k T : nat) (cb : callback).

Lemma calls_for_app s (l l' : list (obs Event)) :
  calls_for s (l ++ l') = calls_for s l ++ calls_for s l'.
Proof. unfold calls_for. by rewrite flat_map_app. Qed.

(** One pass over a sorted map calls the callback of the entry at [s]
    once, if there is one, and nothing else for [s]. *)
Lemma calls_for_deliveries s m (e : Event) :
  StdMap.sorted m ->
  calls_for s (deliveries m e) =
    match StdMap.find s m with Some cb => [(cb, e)] | None => [] end.
Proof.
  induction m as [|[k cb] m IH]; simpl; [done|]. intros [Hall Hso].
  rewrite (Nat.eqb_sym k s). destruct (Nat.eqb_spec s k) as [->|Hne]; simpl.
  - rewrite IH by done. by rewrite stdmap_find_above.
  - by apply IH.
Qed.

(** Every subscriber of [T] is called exactly once by a publish of [T],
    with its own callback and the event published, and nobody else is
    called, when the callbacks entered for [T] do not call back into the
    dispatcher. *)
Theorem publish_calls_each_subscriber_once w T m e fuel :
  reachable code w ->
  channel_entries w T = Some m ->
  (forall k cb, In (k, cb) m -> code cb e = []) ->
  length m < fuel ->
  exists l,
    publish code fuel T e w = Returns tt (with_log w l) /\
    forall s, calls_for s l =
      match StdMap.find s m with Some cb => [(cb, e)] | None => [] end.
Proof.
  intros [Hst _ _]%reachable_invariant
         (d & x & Hch & Hx & <-)%channel_entries_Some Hpure Hfuel.
  pose proof (ok_sorted w Hst d x Hx) as Hso.
  exists (deliveries (m_callbacks x) e). split.
  - by apply (publish_observers code fuel T e w d x).
  - intros s. by apply calls_for_deliveries.
Qed.

(** When the callbacks entered for the type [T'] do not call back into
    the dispatcher, a publish of [T'], whether its channel exists or is
    created by the call, returns without a call for any subscriber of
    another type [T]. *)
Theorem publish_other_type_not_delivered w T T' m s e fuel :
  reachable code w ->
  T <> T' ->
  channel_entries w T = Some m -> is_Some (StdMap.find s m) ->
  (forall k cb, In (k, cb) (default [] (channel_entries w T')) -> code cb e = []) ->
  length (default [] (channel_entries w T')) < fuel ->
  exists w' l,
    publish code fuel T' e w = Returns tt w' /\
    log w' = log w ++ l /\ calls_for s l = [].
Proof.
  intros Hr Hne Hm Hs Hpure Hfuel.
  pose proof (reachable_invariant code w Hr) as Hw.
  pose proof (reachable_registry_wf code w Hr) as Hwf.
  assert (Hreg : is_Some (registry w)).
  { revert Hm. unfold channel_entries. destruct (registry w); [by eexists|done]. }
  assert (Hf : StdMap.find s (default [] (channel_entries w T')) = None).
  { destruct (channel_entries w T') as [m'|] eqn:Hm'; [|done]. simpl.
    destruct (StdMap.find s m') as [cb|] eqn:Hf; [|done]. exfalso. apply Hne.
    apply (entry_channel_unique w s T T' m m' Hw Hwf); eauto. }
  destruct (dispatcher_entries w T' Hw Hreg) as (d & w0 & x & Hd & Hw0 & Hch0 & Hx & Hmx).
  pose proof (dispatcher_log w T' d w0 Hd) as Hlog.
  rewrite <- Hmx in *.
  exists (with_log w0 (deliveries (m_callbacks x) e)), (deliveries (m_callbacks x) e).
  pose proof (ok_sorted w0 (inv_store w0 Hw0) d x Hx) as Hso.
  split_and!.
  - pose proof (publish_observers code fuel T' e w0 d x Hch0 Hx Hso Hpure Hfuel) as Hp.
    destruct fuel as [|fuel]; [lia|]. simpl in *.
    unfold bind at 1 in Hp. unfold bind at 1.
    rewrite (dispatcher_existing w0 T' d Hch0) in Hp. by rewrite Hd.
  - simpl. by rewrite Hlog.
  - by rewrite calls_for_deliveries, Hf.
Qed.

(** The loop of [publish] over a first part [pre] of the entries left,
    all of callbacks that only look: it arrives at the node after [pre]. *)
Lemma range_for_observers_upto (rec : nat -> Event -> M Event unit) e d x w :
  dispatchers w !! d = Some x ->
  StdMap.sorted (m_callbacks x) ->
  forall pre before rest l fuel,
    m_callbacks x = before ++ pre ++ rest ->
    (forall k cb, In (k, cb) pre -> code cb e = []) ->
    range_for (length pre + fuel) d
      (fun k cb => bind (observe (Invoked k cb e)) (fun _ => exec_all rec (code cb e)))
      (StdMap.begin (pre ++ rest)) (with_log w l) =
    range_for fuel d
      (fun k cb => bind (observe (Invoked k cb e)) (fun _ => exec_all rec (code cb e)))
      (StdMap.begin rest) (with_log w (l ++ deliveries pre e)).
Proof.
  intros Hd Hso. induction pre as [|[k cb] pre IH]; intros before rest l fuel Hm Hpure.
  - simpl. by rewrite app_nil_r.
  - simpl in Hm. simpl.
    assert (Hf : StdMap.find k (m_callbacks x) = Some cb).
    { rewrite Hm. apply stdmap_find_middle. by rewrite <- Hm. }
    unfold bind at 1, deref_dispatcher at 1. simpl. rewrite Hd, Hf.
    unfold bind at 1. unfold bind at 1. simpl.
    rewrite (Hpure k cb) by (by left). simpl.
    unfold bind at 1, deref_dispatcher at 1. simpl. rewrite Hd, Hf.
    replace (StdMap.next k (m_callbacks x)) with (StdMap.begin (pre ++ rest)).
    2:{ rewrite Hm. symmetry. apply (stdmap_next_middle k cb before (pre ++ rest)).
        by rewrite <- Hm. }
    change (range_for (length pre + fuel) d
      (fun k cb => bind (observe (Invoked k cb e)) (fun _ => exec_all rec (code cb e)))
      (StdMap.begin (pre ++ rest)) (with_log (with_log w l) [Invoked k cb e]) =
      range_for fuel d
      (fun k cb => bind (observe (Invoked k cb e)) (fun _ => exec_all rec (code cb e)))
      (StdMap.begin rest) (with_log w (l ++ Invoked k cb e :: deliveries pre e))).
    rewrite with_log_app.
    rewrite (IH (before ++ [(k, cb)]) rest (l ++ [Invoked k cb e]) fuel).
    + by rewrite <- app_assoc.
    + by rewrite <- app_assoc.
    + intros k' cb' Hin. apply (Hpure k' cb'). by right.
Qed.

(** A callback that cancels the subscription it was entered with makes
    the publish fault: the entries before it have been called, it has been
    called and its [cancel()] has returned, and the increment of the loop
    finds its node erased. *)
Theorem publish_cancelling_own_subscription_faults w T pre s cb post e fuel :
  reachable code w ->
  channel_entries w T = Some (pre ++ (s, cb) :: post) ->
  (forall k c, In (k, c) pre -> code c e = []) ->
  code cb e = [Cancel s] ->
  length pre + 1 < fuel ->
  exists w',
    publish code fuel T e w = Faults InvalidIterator w' /\
    log w' = log w ++ deliveries pre e ++ [Invoked s cb e; Cancelled s].
Proof.
  intros [Hst _ _]%reachable_invariant
         (d & x & Hch & Hx & Hm)%channel_entries_Some Hpure Hcb Hfuel.
  pose proof (ok_sorted w Hst d x Hx) as Hso.
  assert (Hf : StdMap.find s (m_callbacks x) = Some cb).
  { rewrite Hm. apply stdmap_find_middle. by rewrite <- Hm. }
  pose proof (ok_entry w Hst _ _ _ _ Hx Hf) as Hs.
  destruct fuel as [|fuel]; [lia|].
  replace fuel with (length pre + S (fuel - length pre - 1)) by lia.
  set (f := fuel - length pre - 1).
  set (w2 := with_log (with_log w (deliveries pre e)) [Invoked s cb e]).
  exists (after_cancel w2 s d x). split.
  - simpl. unfold bind at 1. rewrite (dispatcher_existing w T d Hch).
    unfold SpecificDispatcher_publish, bind at 1, deref_dispatcher at 1.
    rewrite Hx. simpl. rewrite Hm. rewrite <- (with_log_nil w) at 1.
    rewrite (range_for_observers_upto _ e d x w Hx Hso pre [] ((s, cb) :: post) []
               (S f)); [|done|done].
    simpl. unfold bind at 1, deref_dispatcher at 1. simpl. rewrite Hx, Hf.
    unfold bind at 1. unfold bind at 1. simpl. rewrite Hcb. simpl.
    unfold bind at 1. unfold bind at 1.
    match goal with |- context [cancel s ?v] => change v with w2 end.
    rewrite (cancel_active w2 s d x Hs Hx). simpl.
    unfold bind, deref_dispatcher. simpl. rewrite lookup_insert_eq. simpl.
    by rewrite stdmap_find_erase_eq.
  - simpl. by rewrite <- !app_assoc.
Qed.

(** A callback that publishes, from inside its call, the event it has
    received under the type it is subscribed to never lets the publish
    return: whatever the fuel, the model runs out of it. *)
Theorem publish_republishing_callback_never_returns w T s cb e fuel :
  only_subscription w T s cb ->
  code cb e = [Publish T e] ->
  exists w', publish code fuel T e w = OutOfFuel w'.
Proof.
  intros Honly Hcb. revert w Honly.
  induction fuel as [|fuel IH]; intros w (r & d & Hr & Hf & Hx); [by eexists|].
  change (publish code (S fuel) T e w) with
    (bind (dispatcher T)
       (fun d => SpecificDispatcher_publish fuel
          (fun cb ev => exec_all (publish code fuel) (code cb ev)) d e) w).
  revert IH. generalize (publish code fuel). intros rec IH.
  unfold bind at 1. rewrite (dispatcher_existing w T d) by (unfold channel_of; by rewrite Hr).
  unfold SpecificDispatcher_publish, bind at 1, deref_dispatcher at 1.
  rewrite Hx. simpl. destruct fuel as [|fuel]; [by eexists|].
  simpl. unfold bind at 1, deref_dispatcher at 1. rewrite Hx. simpl.
  rewrite Nat.eqb_refl. unfold bind at 1. unfold bind at 1. simpl. rewrite Hcb.
  simpl. unfold bind at 1.
  destruct (IH (with_log w [Invoked s cb e])) as [w' Hw'].
  { by exists r, d. }
  unfold with_log in Hw'. rewrite Hw'. by eexists.
Qed.

End Deliveries.

(** ** Tearing the registry down *)

Section Teardown.
Context {Event : Type}.
Variable code : callback -> Event -> list (command Event).
Implicit Types (w : World Event) (s d k T : nat) (cb : callback).

(** In a sorted map that has no value under two keys, the values are
    pairwise different. *)
Lemma stdmap_values_nodup (m : list (nat * nat)) :
  StdMap.sorted m ->
  (forall T T' d, In (T, d) m -> In (T', d) m -> T = T') ->
  NoDup (map snd m).
Proof.
  induction m as [|[T0 d0] m IH]; simpl; [constructor|].
  intros [Hall Hso] Hinj. constructor.
  - intros ([T' d'] & Hd' & Hin)%list_elem_of_In%in_map_iff. simpl in Hd'. subst d'.
    assert (T0 = T') as <- by (eapply Hinj; eauto).
    rewrite Forall_forall in Hall. apply list_elem_of_In, Hall in Hin.
    simpl in Hin. lia.
  - apply IH; [done|]. intros T T' d HT HT'. eapply Hinj; eauto.
Qed.

Lemma destroy_all_empty ds w :
  NoDup (map snd ds) ->
  (forall T d, In (T, d) ds -> dispatchers w !! d = Some {| m_callbacks := [] |}) ->
  exists w', destroy_all ds w = Returns tt w'.
Proof.
  revert w. induction ds as [|[T0 d0] ds IH]; intros w Hnd Hall; simpl;
    [by eexists|].
  apply NoDup_cons in Hnd as [Hni Hnd]. unfold bind.
  rewrite (destroy_SpecificDispatcher_empty w d0) by (eapply Hall; by left).
  apply IH; [done|]. intros T d Hin. simpl.
  apply lookup_delete_Some. split; [|eapply Hall; by right].
  intros <-. apply Hni. apply list_elem_of_In, in_map_iff. by exists (T, d0).
Qed.

Lemma destroy_all_frame ds w w' :
  store_ok w -> log_ok w -> destroy_all ds w = Returns tt w' ->
  subscriptions w' = subscriptions w /\ log w' = log w.
Proof.
  revert w. induction ds as [|[T0 d0] ds IH]; intros w Hst Hlg; simpl.
  - by intros [= <-].
  - intros ([] & w1 & Hd & Hrest)%bind_returns.
    apply destroy_SpecificDispatcher_returns in Hd as [Hd ->]; [|done].
    destruct (without_dispatcher_ok w d0) as [Hst1 Hlg1]; [done..|].
    by destruct (IH _ Hst1 Hlg1 Hrest) as [-> ->].
Qed.

(** The destructor of the registry returns exactly when no handle is
    active; with an active handle it faults. *)
Theorem destroy_EventDispatcher_returns_iff_no_active w :
  reachable code w ->
  is_Some (registry w) ->
  (exists w', destroy_EventDispatcher w = Returns tt w') <->
  (forall s, active s w <> Returns true w).
Proof.
  intros Hr [r Hreg]. pose proof (reachable_invariant code w Hr) as [Hst Hlg Hrg].
  pose proof (reachable_registry_wf code w Hr) as [Hso Hin How Hgo]. split.
  - intros [w' Hdes] s (_ & [[d|]] & Hs & Hb)%active_returns; [|done].
    destruct (ok_bound w Hst _ _ Hs) as (x & Hx & [cb Hf]).
    destruct (How r d x Hreg Hx) as [T HT].
    apply (teardown_with_entry_never_returns w T d x) in Hdes; try done.
    + unfold channel_of. by rewrite Hreg.
    + intros Hm. by rewrite Hm in Hf.
  - intros Hno. unfold destroy_EventDispatcher, bind at 1, the_registry.
    rewrite Hreg. simpl. unfold bind.
    destruct (destroy_all_empty (m_dispatchers r) w) as [w' ->]; [| |by eexists].
    + apply stdmap_values_nodup; [by apply Hso|]. intros T T' d HT HT'.
      apply (Hin r T T' d Hreg); apply stdmap_In_find; eauto.
    + intros T d HT. apply stdmap_In_find in HT; [|by apply Hso].
      destruct (Hrg r T d Hreg HT) as [[[|[k cb] m]] Hx]; [done|].
      exfalso. apply (Hno k).
      apply (active_live w k {| m_specific_dispatcher := Some d |}).
      apply (ok_entry w Hst d _ k cb Hx). simpl. by rewrite Nat.eqb_refl.
Qed.

(** A teardown that returns has released every dispatcher and left every
    handle and the log as they were; a later [subscribe] or [publish] is a
    use of the destroyed registry. *)
Theorem destroy_EventDispatcher_effect w w' T cb e fuel :
  reachable code w ->
  destroy_EventDispatcher w = Returns tt w' ->
  registry w' = None /\ dispatchers w' = ∅ /\
  subscriptions w' = subscriptions w /\ log w' = log w /\
  subscribe T cb w' = Faults DanglingPointer w' /\
  publish code (S fuel) T e w' = Faults DanglingPointer w'.
Proof.
  intros Hr Hdes. pose proof (reachable_invariant code w Hr) as Hw.
  pose proof (reachable_registry_wf code w Hr) as Hwf.
  pose proof (destroy_EventDispatcher_registry_wf w w' Hw Hwf Hdes) as [_ _ _ Hgo].
  revert Hdes. unfold destroy_EventDispatcher, bind at 1, the_registry.
  destruct (registry w) as [r|] eqn:Hreg; simpl; [|done].
  intros ([] & w1 & Hall & [= <-])%bind_returns. simpl in *.
  destruct (destroy_all_frame _ _ _ (inv_store w Hw) (inv_log w Hw) Hall) as [Hs Hl].
  split_and!; try done. by apply Hgo.
Qed.

End Teardown.

(** ** A subscription held for a scope *)

Section Scope.
Context {Event : Type}.
Variable code : callback -> Event -> list (command Event).
Implicit Types (w : World Event) (s d k T : nat) (cb : callback).

Lemma run_app fuel p q w w1 :
  run code fuel p w = Returns tt w1 ->
  run code fuel (p ++ q) w = run code fuel q w1.
Proof.
  unfold run. revert w. induction p as [|c p IH]; intros w; simpl.
  - by intros [= <-].
  - intros ([] & w0 & Hc & Hrest)%bind_returns. unfold bind at 1. rewrite Hc.
    by apply IH.
Qed.

Lemma run_publishes fuel T events w w1 :
  publish_each code fuel T events w = Returns tt w1 ->
  run code fuel (map (Publish T) events) w = Returns tt w1.
Proof.
  unfold run. revert w. induction events as [|e events IH]; intros w; simpl.
  - by intros [= <-].
  - unfold bind at 1. destruct (publish code fuel T e w) as [[] w0| |]; [|done..].
    apply IH.
Qed.

(** Publishing a sequence of events to a channel of callbacks that only
    look: one pass per event, in order. *)
Lemma publish_each_observers fuel T events w d x :
  channel_of w T = Some d ->
  dispatchers w !! d = Some x ->
  StdMap.sorted (m_callbacks x) ->
  (forall e k cb, In e events -> In (k, cb) (m_callbacks x) -> code cb e = []) ->
  length (m_callbacks x) < fuel ->
  publish_each code fuel T events w =
    Returns tt (with_log w (flat_map (deliveries (m_callbacks x)) events)).
Proof.
  intros Hch Hx Hso Hpure Hfuel. revert w Hch Hx Hpure.
  induction events as [|e events IH]; intros w Hch Hx Hpure; simpl.
  - by rewrite with_log_nil.
  - rewrite (publish_observers code fuel T e w d x); try done.
    + rewrite IH; try done.
      * by rewrite with_log_app.
      * intros e' k cb He'. apply Hpure. by right.
    + intros k cb. apply Hpure. by left.
Qed.

(** The scope of [main.cpp], for any type without subscribers: while the
    handle is held its callback is called with every event published, in
    order; once the handle has gone, with none.  The handles are afterwards
    those there were before. *)
Theorem scoped_subscription_log w T cb s w0 inside outside fuel :
  reachable code w ->
  default [] (channel_entries w T) = [] ->
  subscribe T cb w = Returns s w0 ->
  (forall e, In e inside -> code cb e = []) ->
  1 < fuel ->
  exists w',
    run code fuel (scoped_subscription T cb s inside outside) w = Returns tt w' /\
    log w' = log w ++ map (Invoked s cb) inside ++ [Cancelled s] /\
    subscriptions w' = subscriptions w.
Proof.
  intros Hr Hempty Hs Hpure Hfuel. pose proof (reachable_invariant code w Hr) as Hw.
  pose proof (reachable_registry_wf code w Hr) as Hwf.
  pose proof (subscribe_invariant w T cb s w0 Hw Hs) as Hw0.
  destruct (subscribe_shape w T cb s w0 Hw Hwf Hs) as (d & wd & x & Hd & Hx & -> & ->).
  destruct (dispatcher_shape w T d wd Hw Hwf Hd)
    as (Hwd & Hwfd & Hchd & (x' & Hx' & Hm) & Hsub & Hlog & Hnext & Hframe).
  assert (x' = x) as -> by congruence. rewrite Hempty in Hm.
  set (s := next_addr wd) in *. set (w0 := after_subscribe wd d x cb) in *.
  set (x0 := {| m_callbacks := StdMap.insert s cb (m_callbacks x) |}).
  assert (Hx0 : dispatchers w0 !! d = Some x0) by (simpl; by rewrite lookup_insert_eq).
  assert (Hm0 : m_callbacks x0 = [(s, cb)]) by (simpl; by rewrite Hm).
  set (l := map (Invoked s cb) inside). set (w1 := with_log w0 l).
  assert (H1 : run code fuel (map (Publish T) inside) w0 = Returns tt w1).
  { apply run_publishes.
    rewrite (publish_each_observers fuel T inside w0 d x0 Hchd Hx0).
    - by rewrite Hm0.
    - rewrite Hm0. simpl. split; [constructor|done].
    - rewrite Hm0. intros e k c He [[= <- <-]|[]]. by apply Hpure.
    - rewrite Hm0. simpl. lia. }
  assert (Hs1 : subscriptions w1 !! s = Some {| m_specific_dispatcher := Some d |}).
  { simpl. by rewrite lookup_insert_eq. }
  set (w2 := without_subscription (after_cancel w1 s d x0) s).
  assert (H2 : run code fuel [Delete s] w1 = Returns tt w2).
  { unfold run. simpl. unfold bind at 1, delete_subscription, bind at 1.
    by rewrite (cancel_active w1 s d x0 Hs1 Hx0). }
  set (x2 := {| m_callbacks := StdMap.erase s (m_callbacks x0) |}).
  assert (Hx2 : dispatchers w2 !! d = Some x2) by (simpl; by rewrite lookup_insert_eq).
  assert (Hm2 : m_callbacks x2 = []).
  { unfold x2. rewrite Hm0. simpl. by rewrite Nat.eqb_refl. }
  assert (H3 : run code fuel (map (Publish T) outside) w2 = Returns tt w2).
  { apply run_publishes.
    rewrite (publish_each_observers fuel T outside w2 d x2 Hchd Hx2).
    - rewrite Hm2. replace (flat_map (deliveries []) outside) with (@nil (obs Event)).
      + by rewrite with_log_nil.
      + clear. induction outside; simpl; congruence.
    - by rewrite Hm2.
    - rewrite Hm2. by intros e k c _ [].
    - rewrite Hm2. simpl. lia. }
  exists w2. split_and!.
  - unfold scoped_subscription.
    rewrite (run_app fuel [Subscribe T cb] _ w w0).
    2:{ unfold run. simpl. unfold bind at 1, bind at 1. by rewrite Hs. }
    rewrite (run_app fuel _ _ w0 w1 H1). by rewrite (run_app fuel _ _ w1 w2 H2).
  - simpl. rewrite Hlog. by rewrite <- app_assoc.
  - simpl. rewrite delete_insert_eq, delete_insert_eq, <- Hsub. apply delete_id.
    destruct (subscriptions wd !! s) as [y|] eqn:Hy; [|done].
    apply (ok_subscription_fresh wd (inv_store wd Hwd)) in Hy. subst s. lia.
Qed.

End Scope.

(** ** Once cancelled, and the destructor of a channel *)

Section Afterwards.
Context {Event : Type}.
Variable code : callback -> Event -> list (command Event).
Implicit Types (w : World Event) (s d k T : nat) (cb : callback).

(** A handle whose [cancel()] has returned never becomes active again:
    after whatever the client does next, as long as the handle is alive,
    [active()] answers false, and a further [cancel()] or the destructor is
    a call through [nullptr]. *)
Theorem cancelled_stays_inactive w s w1 fuel p w2 x :
  reachable code w ->
  cancel s w = Returns tt w1 ->
  run code fuel p w1 = Returns tt w2 ->
  subscriptions w2 !! s = Some x ->
  active s w2 = Returns false w2 /\
  cancel s w2 = Faults NullDereference w2 /\
  delete_subscription s w2 = Faults NullDereference w2.
Proof.
  intros Hw%reachable_invariant Hc Hrun Hs.
  pose proof (cancel_invariant w s w1 Hw Hc) as Hw1.
  pose proof (run_invariant code fuel p w1 w2 Hw1 Hrun) as [_ Hlg2 _].
  destruct (run_log_extends code fuel p w1 w2 Hrun) as [l Hl].
  assert (Hin : In (Cancelled s) (log w2)).
  { rewrite Hl. apply in_or_app. left.
    apply cancel_returns in Hc as (d & y & _ & _ & ->). simpl.
    apply in_or_app. right. by left. }
  pose proof (ok_cancelled_null w2 Hlg2 s x Hin Hs) as Hnull.
  destruct x as [[d|]]; simpl in Hnull; [done|].
  pose proof (cancel_null w2 s Hs) as Hc2. split_and!.
  - by rewrite (active_live w2 s _ Hs).
  - done.
  - unfold delete_subscription, bind. by rewrite Hc2.
Qed.

(** The destructor of a channel returns, releasing the channel, when the
    channel has no entry; with an entry it cancels the first one and faults
    on the increment of its loop, whatever the number of entries. *)
Theorem destroy_SpecificDispatcher_outcome w d x :
  reachable code w ->
  dispatchers w !! d = Some x ->
  match m_callbacks x with
  | [] => destroy_SpecificDispatcher d w = Returns tt (without_dispatcher w d)
  | (k, _) :: _ =>
      destroy_SpecificDispatcher d w = Faults InvalidIterator (after_cancel w k d x)
  end.
Proof.
  intros [Hst _ _]%reachable_invariant Hx.
  destruct (m_callbacks x) as [|[k cb] m] eqn:Hm.
  - apply destroy_SpecificDispatcher_empty. destruct x. simpl in Hm. by subst.
  - by apply (destroy_SpecificDispatcher_nonempty w d x k cb m).
Qed.

End Afterwards.

(** ** [active()], from the subscription on *)

Section Bound.
Context {Event : Type}.
Variable code : callback -> Event -> list (command Event).
Implicit Types (w : World Event) (s d k T : nat) (cb : callback).





End Bound.

(** ** One callback subscribed twice *)

Section TwiceAgain.
Context {Event : Type}.
Variable code : callback -> Event -> list (command Event).
Implicit Types (w : World Event) (s d k T : nat) (cb : callback).

Lemma stdmap_find_app {V} k (m m' : list (nat * V)) :
  StdMap.find k (m ++ m') =
    match StdMap.find k m with Some v => Some v | None => StdMap.find k m' end.
Proof.
  induction m as [|[k0 v0] m IH]; simpl; [done|]. by destruct (k =? k0).
Qed.

(** What one pass over the entries of a channel calls, subscriber by
    subscriber. *)
Lemma calls_for_entries w T m k (e : Event) :
  invariant w -> channel_entries w T = Some m ->
  calls_for k (deliveries m e) =
    match StdMap.find k m with Some c => [(c, e)] | None => [] end.
Proof.
  intros Hw (d & x & _ & Hx & <-)%channel_entries_Some.
  apply calls_for_deliveries. by eapply ok_sorted, Hx; destruct Hw.
Qed.

Lemma cancelled_no_entry w0 s w T m :
  invariant w0 -> cancel s w0 = Returns tt w -> channel_entries w T = Some m ->
  StdMap.find s m = None.
Proof.
  intros Hw0 Hc (d & x & _ & Hx & <-)%channel_entries_Some.
  pose proof (cancel_invariant w0 s w Hw0 Hc) as [Hst _ _].
  destruct (StdMap.find s (m_callbacks x)) as [c|] eqn:Hf; [|done].
  pose proof (ok_entry w Hst _ _ _ _ Hx Hf) as Hs.
  apply cancel_returns in Hc as (d0 & x0 & _ & _ & ->). simpl in Hs.
  by rewrite lookup_insert_eq in Hs.
Qed.

(** C10, as the code has it.  Subscribing the callback [cb] twice to the
    type [T] yields two handles at different addresses, both active.  When
    the callbacks entered for [T] do not call back into the dispatcher, a
    publish calls [cb] once for each of the two handles, and the entries
    the channel had as before; after [cancel()] on either handle the other
    is still active, and a publish calls [cb] for it and not for the
    cancelled one. *)
Theorem same_callback_twice T cb e fuel w m :
  reachable code w ->
  is_Some (registry w) ->
  m = default [] (channel_entries w T) ->
  (forall k c, In (k, c) m -> code c e = []) ->
  code cb e = [] ->
  length m + 2 < fuel ->
  exists s1 s2 w1 w2 w3 w4 l2 l3 l4,
    subscribe T cb w = Returns s1 w1 /\
    subscribe T cb w1 = Returns s2 w2 /\
    s1 <> s2 /\
    active s1 w2 = Returns true w2 /\
    active s2 w2 = Returns true w2 /\
    publish code fuel T e w2 = Returns tt (with_log w2 l2) /\
    calls_for s1 l2 = [(cb, e)] /\
    calls_for s2 l2 = [(cb, e)] /\
    (forall k, k <> s1 -> k <> s2 ->
       calls_for k l2 = match StdMap.find k m with Some c => [(c, e)] | None => [] end) /\
    cancel s1 w2 = Returns tt w3 /\
    active s2 w3 = Returns true w3 /\
    publish code fuel T e w3 = Returns tt (with_log w3 l3) /\
    calls_for s1 l3 = [] /\
    calls_for s2 l3 = [(cb, e)] /\
    cancel s2 w2 = Returns tt w4 /\
    active s1 w4 = Returns true w4 /\
    publish code fuel T e w4 = Returns tt (with_log w4 l4) /\
    calls_for s2 l4 = [] /\
    calls_for s1 l4 = [(cb, e)].
Proof.
  intros Hr Hreg Hm Hpure Hcb Hfuel.
  pose proof (reachable_invariant code w Hr) as Hw.
  destruct (two_subscriptions_entries code T cb e fuel w m Hr Hreg Hm Hpure Hcb Hfuel)
    as (s1 & s2 & w1 & w2 & w3 & w4 & Hs1 & Hs2 & Hne & He2 & Ha1 & Ha2 & Hp2 &
        Hc3 & Ha3 & He3 & Hp3 & Hc4 & Ha4 & He4 & Hp4).
  pose proof (subscribe_invariant w T cb s1 w1 Hw Hs1) as Hw1.
  pose proof (subscribe_invariant w1 T cb s2 w2 Hw1 Hs2) as Hw2.
  pose proof (cancel_invariant w2 s1 w3 Hw2 Hc3) as Hw3.
  pose proof (cancel_invariant w2 s2 w4 Hw2 Hc4) as Hw4.
  assert (Hd : forall m', deliveries m e ++ deliveries m' e = deliveries (m ++ m') e).
  { intros m'. unfold deliveries. by rewrite map_app. }
  assert (Hin : forall w' m' k, invariant w' -> channel_entries w' T = Some m' ->
            In (k, cb) m' -> StdMap.find k m' = Some cb).
  { intros w' m' k Hw' (d & x & _ & Hx & <-)%channel_entries_Some Hk.
    apply stdmap_In_find; [|done]. by eapply ok_sorted, Hx; destruct Hw'. }
  exists s1, s2, w1, w2, w3, w4.
  exists (deliveries (m ++ [(s1, cb); (s2, cb)]) e),
         (deliveries (m ++ [(s2, cb)]) e), (deliveries (m ++ [(s1, cb)]) e).
  rewrite <- !Hd. split_and!; try done; rewrite Hd.
  - rewrite (calls_for_entries w2 T _ s1 e Hw2 He2).
    rewrite (Hin w2 _ s1 Hw2 He2); [done|]. apply in_or_app. right. by left.
  - rewrite (calls_for_entries w2 T _ s2 e Hw2 He2).
    rewrite (Hin w2 _ s2 Hw2 He2); [done|]. apply in_or_app. right. right. by left.
  - intros k Hk1 Hk2. rewrite (calls_for_entries w2 T _ k e Hw2 He2).
    rewrite stdmap_find_app. destruct (StdMap.find k m); [done|]. simpl.
    destruct (Nat.eqb_spec k s1); [done|]. by destruct (Nat.eqb_spec k s2).
  - rewrite (calls_for_entries w3 T _ s1 e Hw3 He3).
    by rewrite (cancelled_no_entry w2 s1 w3 T _ Hw2 Hc3 He3).
  - rewrite (calls_for_entries w3 T _ s2 e Hw3 He3).
    rewrite (Hin w3 _ s2 Hw3 He3); [done|]. apply in_or_app. right. by left.
  - rewrite (calls_for_entries w4 T _ s2 e Hw4 He4).
    by rewrite (cancelled_no_entry w2 s2 w4 T _ Hw2 Hc4 He4).
  - rewrite (calls_for_entries w4 T _ s1 e Hw4 He4).
    rewrite (Hin w4 _ s1 Hw4 He4); [done|]. apply in_or_app. right. by left.
Qed.

End TwiceAgain.

(** C10, as the specification has it, fails.  One callback subscribed
    twice, which cancels one of its two subscriptions when it is called: if
    that is the subscription of the entry visited second, the publish
    returns after one call, not two; if it is the one visited first, the
    publish never returns, it faults on the increment over the erased
    node. *)
Lemma same_callback_twice_meddling :
  run meddlers 1 [Subscribe SomeEvent 1; Subscribe SomeEvent 1] init =
    Returns tt (two_subscribers 1 1) /\
  publish meddlers 3 SomeEvent 0%Z (two_subscribers 1 1) = Returns tt after_meddling /\
  log after_meddling = [Invoked 2 1 0%Z; Cancelled 3] /\
  run meddlers 1 [Subscribe SomeEvent 0; Subscribe SomeEvent 0] init =
    Returns tt (two_subscribers 0 0) /\
  (forall fuel w',
     publish meddlers fuel SomeEvent 0%Z (two_subscribers 0 0) <> Returns tt w').
Proof.
  split_and!; try reflexivity.
  intros [|[|fuel]] w'; discriminate.
Qed.

(** ** The theorems at work *)

Lemma two_types_reachable code : reachable code two_types.
Proof.
  apply (reachable_run code 1 [Subscribe SomeEvent 0; Subscribe 8 1] init);
    [constructor|]. reflexivity.
Qed.

Lemma active_iff_entry_witness :
  active 2 (one_subscriber 0) = Returns true (one_subscriber 0) <->
  exists T m, channel_entries (one_subscriber 0) T = Some m /\
    is_Some (StdMap.find 2 m).
Proof. apply (active_iff_entry observers). apply one_subscriber_reachable. Defined.

Lemma entry_in_one_channel_witness : StdMap.find 2 [(4, 1)] = None.
Proof.
  apply (entry_in_one_channel observers two_types 2 SomeEvent 8 [(2, 0)] [(4, 1)]).
  - apply two_types_reachable.
  - done.
  - reflexivity.
  - by eexists.
  - reflexivity.
Defined.

Lemma cancel_returns_iff_active_witness :
  (exists w', cancel 2 (one_subscriber 0) = Returns tt w') <->
  active 2 (one_subscriber 0) = Returns true (one_subscriber 0).
Proof.
  apply (cancel_returns_iff_active observers). apply one_subscriber_reachable.
Defined.

Lemma cancel_effect_witness :
  let w := two_types in
  let w' := after_cancel w 2 1 {| m_callbacks := [(2, 0)] |} in
  (forall T, channel_entries w' T = StdMap.erase 2 <$> channel_entries w T) /\
  (forall T m, channel_entries w' T = Some m -> StdMap.find 2 m = None) /\
  (forall s', s' <> 2 -> subscriptions w' !! s' = subscriptions w !! s') /\
  active 2 w' = Returns false w' /\
  registry w' = registry w /\
  log w' = log w ++ [Cancelled 2].
Proof.
  apply (cancel_effect observers two_types 2).
  - apply two_types_reachable.
  - reflexivity.
Defined.

Lemma unsubscribe_absent_and_twice_witness :
  exists w1,
    unsubscribe 1 5 (one_subscriber 0) = Returns tt w1 /\
    unsubscribe 1 5 w1 = Returns tt w1 /\
    (StdMap.find 5 (m_callbacks {| m_callbacks := [(2, 0)] |}) = None ->
     w1 = one_subscriber 0).
Proof.
  apply (unsubscribe_absent_and_twice observers (one_subscriber 0) 1
           {| m_callbacks := [(2, 0)] |} 5).
  - apply one_subscriber_reachable.
  - reflexivity.
Defined.

Lemma subscribe_effect_witness :
  let w := two_types in
  exists s w' m',
    subscribe 8 6 w = Returns s w' /\
    subscriptions w !! s = None /\
    active s w' = Returns true w' /\
    channel_entries w' 8 = Some m' /\
    StdMap.find s m' = Some 6 /\
    (forall k, k <> s ->
       StdMap.find k m' = StdMap.find k (default [] (channel_entries w 8))) /\
    length m' = S (length (default [] (channel_entries w 8))) /\
    (forall T', T' <> 8 -> channel_entries w' T' = channel_entries w T') /\
    (forall s', s' <> s -> subscriptions w' !! s' = subscriptions w !! s') /\
    log w' = log w.
Proof.
  apply (subscribe_effect observers two_types 8 6).
  - apply two_types_reachable.
  - by eexists.
Defined.

Lemma delete_subscription_returns_iff_active_witness :
  (exists w', delete_subscription 2 (one_subscriber 0) = Returns tt w') <->
  active 2 (one_subscriber 0) = Returns true (one_subscriber 0).
Proof.
  apply (delete_subscription_returns_iff_active observers).
  apply one_subscriber_reachable.
Defined.

Lemma delete_subscription_effect_witness :
  let w := two_types in
  let w' := without_subscription (after_cancel w 4 3 {| m_callbacks := [(4, 1)] |}) 4 in
  subscriptions w' !! 4 = None /\
  (forall s', s' <> 4 -> subscriptions w' !! s' = subscriptions w !! s') /\
  (forall T, channel_entries w' T = StdMap.erase 4 <$> channel_entries w T) /\
  log w' = log w ++ [Cancelled 4] /\
  active 4 w' = Faults DanglingPointer w' /\
  cancel 4 w' = Faults DanglingPointer w'.
Proof.
  apply (delete_subscription_effect observers two_types 4).
  - apply two_types_reachable.
  - reflexivity.
Defined.

Lemma subscribe_delete_round_trip_witness :
  exists w2,
    delete_subscription 2 (one_subscriber 0) = Returns tt w2 /\
    subscriptions w2 = subscriptions (@init Z) /\
    channel_entries w2 SomeEvent =
      Some (default [] (channel_entries (@init Z) SomeEvent)) /\
    (forall T', T' <> SomeEvent ->
       channel_entries w2 T' = channel_entries (@init Z) T') /\
    log w2 = log (@init Z) ++ [Cancelled 2].
Proof.
  apply (subscribe_delete_round_trip observers init SomeEvent 0 2 (one_subscriber 0)).
  - constructor.
  - reflexivity.
Defined.

Lemma publish_no_subscribers_witness :
  exists w1,
    publish observers 1 SomeEvent 5%Z init = Returns tt w1 /\
    log w1 = log (@init Z) /\
    subscriptions w1 = subscriptions (@init Z) /\
    channel_entries w1 SomeEvent = Some [] /\
    publish observers 1 SomeEvent 6%Z w1 = Returns tt w1.
Proof.
  apply (publish_no_subscribers observers init SomeEvent 5%Z 6%Z 1).
  - constructor.
  - by eexists.
  - reflexivity.
  - lia.
Defined.

Lemma publish_calls_each_subscriber_once_witness :
  exists l,
    publish observers 3 SomeEvent 5%Z (two_subscribers 0 6) =
      Returns tt (with_log (two_subscribers 0 6) l) /\
    forall s, calls_for s l =
      match StdMap.find s [(2, 0); (3, 6)] with
      | Some cb => [(cb, 5%Z)]
      | None => []
      end.
Proof.
  apply (publish_calls_each_subscriber_once observers (two_subscribers 0 6) SomeEvent
           [(2, 0); (3, 6)] 5%Z 3).
  - apply two_subscribers_reachable.
  - reflexivity.
  - reflexivity.
  - simpl. lia.
Defined.

Lemma publish_other_type_not_delivered_witness :
  exists w' l,
    publish observers 2 8 5%Z two_types = Returns tt w' /\
    log w' = log two_types ++ l /\ calls_for 2 l = [].
Proof.
  apply (publish_other_type_not_delivered observers two_types SomeEvent 8
           [(2, 0)] 2 5%Z 2).
  - apply two_types_reachable.
  - done.
  - reflexivity.
  - by eexists.
  - reflexivity.
  - vm_compute. lia.
Defined.

Lemma publish_cancelling_own_subscription_faults_witness :
  exists w',
    publish meddlers 3 SomeEvent 0%Z (two_subscribers 5 1) =
      Faults InvalidIterator w' /\
    log w' = log (two_subscribers 5 1) ++ deliveries [(2, 5)] 0%Z ++
               [Invoked 3 1 0%Z; Cancelled 3].
Proof.
  apply (publish_cancelling_own_subscription_faults meddlers (two_subscribers 5 1)
           SomeEvent [(2, 5)] 3 1 [] 0%Z 3).
  - apply two_subscribers_reachable.
  - reflexivity.
  - intros k c [[= <- <-]|[]]. reflexivity.
  - reflexivity.
  - simpl. lia.
Defined.

Lemma publish_republishing_callback_never_returns_witness :
  exists w', publish echo 4 SomeEvent 5%Z (one_subscriber 3) = OutOfFuel w'.
Proof.
  apply (publish_republishing_callback_never_returns echo (one_subscriber 3)
           SomeEvent 2 3 5%Z 4).
  - exists {| m_dispatchers := [(SomeEvent, 1)] |}, 1. repeat split; reflexivity.
  - reflexivity.
Defined.

Lemma destroy_EventDispatcher_returns_iff_no_active_witness :
  (exists w', destroy_EventDispatcher (one_subscriber 0) = Returns tt w') <->
  (forall s, active s (one_subscriber 0) <> Returns true (one_subscriber 0)).
Proof.
  apply (destroy_EventDispatcher_returns_iff_no_active observers).
  - apply one_subscriber_reachable.
  - by eexists.
Defined.

Lemma destroy_EventDispatcher_effect_witness :
  registry torn_down = None /\ dispatchers torn_down = ∅ /\
  subscriptions torn_down = subscriptions (@init Z) /\
  log torn_down = log (@init Z) /\
  subscribe SomeEvent 0 torn_down = Faults DanglingPointer torn_down /\
  publish observers (S 0) SomeEvent 5%Z torn_down = Faults DanglingPointer torn_down.
Proof.
  apply (destroy_EventDispatcher_effect observers init torn_down SomeEvent 0 5%Z 0).
  - constructor.
  - reflexivity.
Defined.

Lemma scoped_subscription_log_witness :
  exists w',
    run observers 2 (scoped_subscription SomeEvent 1 2 [0; 1; 2]%Z [3%Z]) init =
      Returns tt w' /\
    log w' = log (@init Z) ++ map (Invoked 2 1) [0; 1; 2]%Z ++ [Cancelled 2] /\
    subscriptions w' = subscriptions (@init Z).
Proof.
  apply (scoped_subscription_log observers init SomeEvent 1 2 (one_subscriber 1)
           [0; 1; 2]%Z [3%Z] 2).
  - constructor.
  - reflexivity.
  - reflexivity.
  - reflexivity.
  - lia.
Defined.

Lemma cancelled_stays_inactive_witness :
  let w1 := after_cancel (two_subscribers 0 0) 2 1 {| m_callbacks := [(2, 0); (3, 0)] |} in
  let w2 := with_log w1 [Invoked 3 0 5%Z] in
  active 2 w2 = Returns false w2 /\
  cancel 2 w2 = Faults NullDereference w2 /\
  delete_subscription 2 w2 = Faults NullDereference w2.
Proof.
  apply (cancelled_stays_inactive observers (two_subscribers 0 0) 2
           (after_cancel (two_subscribers 0 0) 2 1 {| m_callbacks := [(2, 0); (3, 0)] |})
           2 [Publish SomeEvent 5%Z]
           (with_log
              (after_cancel (two_subscribers 0 0) 2 1
                 {| m_callbacks := [(2, 0); (3, 0)] |})
              [Invoked 3 0 5%Z])
           {| m_specific_dispatcher := None |}).
  - apply two_subscribers_reachable.
  - reflexivity.
  - reflexivity.
  - reflexivity.
Defined.

Lemma destroy_SpecificDispatcher_outcome_witness :
  match m_callbacks {| m_callbacks := [(2, 0); (3, 6)] |} with
  | [] =>
      destroy_SpecificDispatcher 1 (two_subscribers 0 6) =
        Returns tt (without_dispatcher (two_subscribers 0 6) 1)
  | (k, _) :: _ =>
      destroy_SpecificDispatcher 1 (two_subscribers 0 6) =
        Faults InvalidIterator
          (after_cancel (two_subscribers 0 6) k 1 {| m_callbacks := [(2, 0); (3, 6)] |})
  end.
Proof.
  apply (destroy_SpecificDispatcher_outcome observers (two_subscribers 0 6) 1
           {| m_callbacks := [(2, 0); (3, 6)] |}).
  - apply two_subscribers_reachable.
  - reflexivity.
Defined.


(** Both sides false: the handle is cancelled, then the registry torn
    down; the handle lives on, inactive, and its channel is gone. *)
Lemma active_false_after_teardown :
  let o := run observers 1 [Cancel 2; DestroyRegistry] (one_subscriber 0) in
  o = Returns tt (final o) /\
  subscriptions (final o) !! 2 = Some {| m_specific_dispatcher := None |} /\
  active 2 (final o) = Returns false (final o) /\
  In (Cancelled 2) (log (final o)) /\
  channel_of (final o) SomeEvent = None /\ dispatchers (final o) !! 1 = None.
Proof. vm_compute. split_and!; try reflexivity. by left. Qed.

Lemma same_callback_twice_witness :
  exists s1 s2 w1 w2 w3 w4 l2 l3 l4,
    subscribe SomeEvent 0 (@init Z) = Returns s1 w1 /\
    subscribe SomeEvent 0 w1 = Returns s2 w2 /\
    s1 <> s2 /\
    active s1 w2 = Returns true w2 /\
    active s2 w2 = Returns true w2 /\
    publish observers 3 SomeEvent 5%Z w2 = Returns tt (with_log w2 l2) /\
    calls_for s1 l2 = [(0, 5%Z)] /\
    calls_for s2 l2 = [(0, 5%Z)] /\
    (forall k, k <> s1 -> k <> s2 ->
       calls_for k l2 =
         match StdMap.find k [] with Some c => [(c, 5%Z)] | None => [] end) /\
    cancel s1 w2 = Returns tt w3 /\
    active s2 w3 = Returns true w3 /\
    publish observers 3 SomeEvent 5%Z w3 = Returns tt (with_log w3 l3) /\
    calls_for s1 l3 = [] /\
    calls_for s2 l3 = [(0, 5%Z)] /\
    cancel s2 w2 = Returns tt w4 /\
    active s1 w4 = Returns true w4 /\
    publish observers 3 SomeEvent 5%Z w4 = Returns tt (with_log w4 l4) /\
    calls_for s2 l4 = [] /\
    calls_for s1 l4 = [(0, 5%Z)].
Proof.
  apply (same_callback_twice observers SomeEvent 0 5%Z 3 init []).
  - constructor.
  - by eexists.
  - reflexivity.
  - reflexivity.
  - reflexivity.
  - simpl. lia.
Defined.
